(** * da-crawl: the crawl scheduler and the blank-page check of [src/crawl.js]

    A shallow embedding of the script.  JavaScript strings are sequences of
    UTF-16 code units, arrays are lists in array order ([push] appends,
    [pop] takes the last element), and the event loop is a step function
    over the events the runtime can deliver: a timer tick, the settlement
    of an awaited remote call of a folder expansion, the settlement of an
    awaited call of a file callback. *)

From Stdlib Require Import String Ascii.
From stdpp Require Import base numbers option list.

Local Open Scope list_scope.
Set Warnings "-register-all".

(** ** JavaScript strings *)

(** A string is its list of UTF-16 code units; [length] is then the
    [.length] property. *)
Abbreviation jsstring := (list N).

Definition js (s : string) : jsstring :=
  map N_of_ascii (list_ascii_of_string s).

(** Template literals and [+] concatenate. *)
Definition concat_js (a b : jsstring) : jsstring := a ++ b.

Definition str_eqb (a b : jsstring) : bool := bool_decide (a = b).

(** WhiteSpace and LineTerminator code points of ECMAScript: the class
    [\s] of regular expressions and the characters [trim] strips. *)
Definition isWhiteSpace (c : N) : bool :=
  ((9 <=? c) && (c <=? 13) || (c =? 32) || (c =? 160) || (c =? 5760)
   || (8192 <=? c) && (c <=? 8202) || (c =? 8232) || (c =? 8233)
   || (c =? 8239) || (c =? 8287) || (c =? 12288) || (c =? 65279))%N.

(** The class [[a-zA-Z]]. *)
Definition isAsciiLetter (c : N) : bool :=
  ((65 <=? c) && (c <=? 90) || (97 <=? c) && (c <=? 122))%N.

Definition SPACE : N := 32%N.

Fixpoint trimStart (s : jsstring) : jsstring :=
  match s with
  | [] => []
  | c :: r => if isWhiteSpace c then trimStart r else s
  end.

Fixpoint trimEnd (s : jsstring) : jsstring :=
  match s with
  | [] => []
  | c :: r =>
      match trimEnd r with
      | [] => if isWhiteSpace c then [] else [c]
      | r' => c :: r'
      end
  end.

(** [String.prototype.trim] *)
Definition trim (s : jsstring) : jsstring := trimEnd (trimStart s).

(** [s.replace(/\s+/g, ' ')]: every maximal run of white space becomes one
    space.  [in_run] records that the previous code unit belonged to the
    run that is being replaced. *)
Fixpoint replace_ws_runs (in_run : bool) (s : jsstring) : jsstring :=
  match s with
  | [] => []
  | c :: r =>
      if isWhiteSpace c
      then (if in_run then replace_ws_runs true r
            else SPACE :: replace_ws_runs true r)
      else c :: replace_ws_runs false r
  end.

Definition replace_whitespace (s : jsstring) : jsstring :=
  replace_ws_runs false s.

(** Number of leading code units of [s] in [[a-zA-Z]]: what the greedy
    quantifier consumes when the match is attempted at the head of [s]. *)
Fixpoint letters_prefix (s : jsstring) : nat :=
  match s with
  | c :: r => if isAsciiLetter c then S (letters_prefix r) else 0
  | [] => 0
  end.

(** [s.match(/[a-zA-Z]{3,}/)] as a truth value: the match is attempted at
    each start position in turn. *)
Fixpoint match_letters3 (s : jsstring) : bool :=
  match s with
  | [] => false
  | _ :: r => (3 <=? letters_prefix s) || match_letters3 r
  end.

(** ** The document view the callback reads *)

(** What the script reads of a DOM element: its [textContent], its
    [innerHTML] and [outerHTML] serializations and its element
    [children]. *)
Inductive Element : Type :=
  mkElement {
    textContent : jsstring;
    innerHTML : jsstring;
    outerHTML : jsstring;
    children : list Element
  }.

(** [dom.body] is [null] or an element. *)
Record Document : Type := mkDocument { body : option Element }.

Inductive ContentVerdict : Type := Blank | Substantive.

Definition bodyText (b : option Element) : jsstring :=
  match b with Some e => trim (textContent e) | None => [] end.

Definition bodyHTML (b : option Element) : jsstring :=
  match b with Some e => trim (innerHTML e) | None => [] end.

Definition cleanText (b : option Element) : jsstring :=
  trim (replace_whitespace (bodyText b)).

Definition cleanHTML (b : option Element) : jsstring :=
  trim (replace_whitespace (bodyHTML b)).

(** Truth value of [body && body.children.length === 0]. *)
Definition no_child_elements (b : option Element) : bool :=
  match b with
  | Some e => length (children e) =? 0
  | None => false
  end.

(** Truth value of [body && body.children.length === 1 &&
    body.children[0].textContent.trim() === '']. *)
Definition only_empty_child (b : option Element) : bool :=
  match b with
  | Some e =>
      (length (children e) =? 1)
      && match children e !! 0 with
         | Some k => str_eqb (trim (textContent k)) []
         | None => false
         end
  | None => false
  end.

(** The value of [isBlankPage], lines 101-112. *)
Definition isBlankPage (b : option Element) : bool :=
  str_eqb (cleanText b) []
  || str_eqb (cleanHTML b) []
  || (length (cleanText b) =? 0)
  || (length (cleanHTML b) =? 0)
  || str_eqb (cleanText b) [SPACE]
  || str_eqb (cleanHTML b) [SPACE]
  || no_child_elements b
  || only_empty_child b
  || ((length (cleanText b) <? 20) && negb (match_letters3 (cleanText b))).

Definition classify (d : Document) : ContentVerdict :=
  if isBlankPage (body d) then Blank else Substantive.

(** ** Requests and responses *)

(** How an awaited promise settles. *)
Inductive Settled (A : Type) : Type :=
  | Fulfilled (a : A)
  | Rejected.
Arguments Fulfilled {A} a.
Arguments Rejected {A}.

Inductive Method : Type := GET | POST.

Record Blob : Type := mkBlob { blob_parts : list jsstring; blob_type : jsstring }.

(** A [FormData]: the appended fields, in order. *)
Abbreviation FormData := (list (jsstring * Blob)).

(** The [options] argument of [authenticatedFetch]; [{}] is [no_options]. *)
Record Options : Type := mkOptions {
  opt_method : option Method;
  opt_headers : list (jsstring * jsstring);
  opt_body : option FormData
}.

Definition no_options : Options :=
  {| opt_method := None; opt_headers := []; opt_body := None |}.

Record Request : Type := mkRequest {
  req_url : jsstring;
  req_method : Method;
  req_headers : list (jsstring * jsstring);
  req_body : option FormData
}.

(** An entry of a listing: [{ path, ext? }]. *)
Record Child : Type := mkChild { path : jsstring; ext : option jsstring }.

(** [child.ext] as a condition: present and not the empty string. *)
Definition has_ext (child : Child) : bool :=
  match ext child with
  | Some e => negb (str_eqb e [])
  | None => false
  end.

(** A response: its [ok] flag and how reading its body with [json()] (the
    array of entries the list operation answers with) or [text()]
    settles. *)
Record Response : Type := mkResponse {
  ok : bool;
  json : Settled (list Child);
  text : Settled jsstring
}.

(** The environment of the script: the token read at start-up, the network
    behind [fetch] and jsdom's [DOMParser] in [text/html] mode. *)
Record Env : Type := mkEnv {
  bearerToken : jsstring;
  fetch : Request -> Settled Response;
  parseFromString : jsstring -> Document
}.

(** The request [authenticatedFetch(url, options)] hands to [fetch]; later
    headers override earlier ones of the same name. *)
Definition authenticatedFetch (E : Env) (url : jsstring) (options : Options)
  : Request :=
  {| req_url := url;
     req_method := default GET (opt_method options);
     req_headers :=
       [ (js "Authorization", concat_js (js "Bearer ") (bearerToken E));
         (js "User-Agent",
          js "Mozilla/5.0 (Macintosh; Intel Mac OS X 10_15_7) AppleWebKit/537.36 (KHTML, like Gecko) Chrome/120.0.0.0 Safari/537.36");
         (js "Accept", js "*/*");
         (js "Referer", js "https://da.live/") ]
       ++ opt_headers options;
     req_body := opt_body options |}.

Definition list_url (p : jsstring) : jsstring :=
  concat_js (js "https://admin.da.live/list") p.

Definition source_url (p : jsstring) : jsstring :=
  concat_js (js "https://admin.da.live/source") p.

Definition list_request (E : Env) (p : jsstring) : Request :=
  authenticatedFetch E (list_url p) no_options.

(** ** Asynchronous callbacks *)

Inductive ConsoleMsg : Type :=
  | CouldNotFetchItem
  | BlankPageDetected (p : jsstring)
  | PageHasContent (p : jsstring) (chars : nat)
  | ErrorProcessing (p : jsstring)
  | CallbackRejected.

Inductive Effect : Type :=
  | Requested (r : Request)
  | Logged (m : ConsoleMsg).

(** Where a run of an async function stands when it gives control back:
    suspended at an [await], returned, or ended by an exception.  The last
    two settle the promise of the call (fulfilled, rejected): an exception
    in the body of an async function does not reach its caller, it
    rejects the promise the call returned. *)
Inductive Async (S : Type) : Type :=
  | Await (k : S)
  | Return
  | Throw.
Arguments Await {S} k.
Arguments Return {S}.
Arguments Throw {S}.

(** An async function of one argument: its run up to the first [await],
    and its run from one [await] to the next, each with the effects it
    has on the way. *)
Record AsyncFn : Type := mkAsyncFn {
  cb_state : Type;
  cb_start : Child -> Async cb_state * list Effect;
  cb_resume : cb_state -> Async cb_state * list Effect
}.

(** [s.endsWith(t)] *)
Definition endsWith (s t : jsstring) : bool :=
  str_eqb (drop (length s - length t) s) t.

(** The suspension points of [callback] in [main]: lines 83, 88 and 136. *)
Inductive CallbackState : Type :=
  | AwaitSource (item : Child)
  | AwaitText (item : Child) (resp : Response)
  | AwaitPublish (item : Child) (req : Request).

Definition publish_options (html : jsstring) : Options :=
  let data := {| blob_parts := [html]; blob_type := js "text/html" |} in
  let formData := [(js "data", data)] in
  {| opt_method := Some POST; opt_headers := []; opt_body := Some formData |}.

(** Lines 89-136, from the text of the response to the [await] of the
    POST. *)
Definition inspect_and_publish (E : Env) (item : Child) (text : jsstring)
  : Async CallbackState * list Effect :=
  let dom := parseFromString E text in
  let body := body dom in
  if isBlankPage body then
    (Return, [Logged (BlankPageDetected (path item))])
  else
    match body with
    | Some b =>
        let html := outerHTML b in
        let url := source_url (path item) in
        let req := authenticatedFetch E url (publish_options html) in
        (Await (AwaitPublish item req),
         [Logged (PageHasContent (path item) (length (cleanText body)));
          Requested req])
    | None =>
        (* [dom.body.outerHTML] on [null] *)
        (Throw, [Logged (PageHasContent (path item) (length (cleanText body)))])
    end.

Definition callback_start (E : Env) (item : Child)
  : Async CallbackState * list Effect :=
  if negb (endsWith (path item) (js ".html")) then (Return, [])
  else
    (Await (AwaitSource item),
     [Requested (authenticatedFetch E (source_url (path item)) no_options)]).

Definition callback_resume (E : Env) (k : CallbackState)
  : Async CallbackState * list Effect :=
  match k with
  | AwaitSource item =>
      match fetch E (authenticatedFetch E (source_url (path item)) no_options) with
      | Rejected => (Throw, [])
      | Fulfilled resp =>
          if negb (ok resp) then (Return, [Logged CouldNotFetchItem])
          else (Await (AwaitText item resp), [])
      end
  | AwaitText item resp =>
      match text resp with
      | Rejected => (Throw, [])
      | Fulfilled t => inspect_and_publish E item t
      end
  | AwaitPublish item req =>
      match fetch E req with
      | Rejected => (Throw, [])
      | Fulfilled _ => (Return, [])
      end
  end.

(** The [callback] of [main]. *)
Definition callback (E : Env) : AsyncFn :=
  {| cb_state := CallbackState;
     cb_start := callback_start E;
     cb_resume := callback_resume E |}.

(** A whole run of an async function on [item], every awaited call
    settling in turn; [fuel] bounds the number of suspensions. *)
Fixpoint resume_all (f : AsyncFn) (fuel : nat) (a : Async (cb_state f))
  (done : list Effect) : option (bool * list Effect) :=
  match a with
  | Return => Some (true, done)
  | Throw => Some (false, done)
  | Await k =>
      match fuel with
      | 0 => None
      | S n => let '(a', eff) := cb_resume f k in resume_all f n a' (done ++ eff)
      end
  end.

Definition run_async (f : AsyncFn) (fuel : nat) (item : Child)
  : option (bool * list Effect) :=
  let '(a, eff) := cb_start f item in resume_all f fuel a eff.

(** The requests with method POST among the effects: the publish calls. *)
Definition publish_calls (effs : list Effect) : list Request :=
  omap (fun e => match e with
                 | Requested r =>
                     match req_method r with POST => Some r | GET => None end
                 | Logged _ => None
                 end) effs.

(** ** The scheduler of [crawl] *)

(** An invocation of the interval handler that is suspended: at the
    [await] of the list request (line 41) or at the [await] of
    [resp.json()] (line 43). *)
Inductive Expansion : Type :=
  | AwaitList (currentPath : jsstring)
  | AwaitJson (currentPath : jsstring) (resp : Response).

Definition expansion_path (x : Expansion) : jsstring :=
  match x with
  | AwaitList p => p
  | AwaitJson p _ => p
  end.

(** The promise [results].  It is resolved with the array [files] itself,
    not with a copy, so its value is a reference. *)
Inductive ArrayRef : Type := FilesArray.

Inductive Promise : Type :=
  | Pending
  | Resolved (value : ArrayRef)
  | Failed.

(** The variables of one call of [crawl] that its interval handlers share,
    with the handlers that are suspended and the requests they made. *)
Record Sched : Type := mkSched {
  files : list Child;
  folders : list jsstring;
  inProgress : list bool;
  interval : bool;              (* the timer is armed *)
  results : Promise;
  expansions : list Expansion;
  fetched : list Request       (* calls of [authenticatedFetch], oldest first *)
}.

(** The callbacks of a call of [crawl]: an async function, or nothing. *)
Definition callback_state (callback : option AsyncFn) : Type :=
  match callback with
  | Some f => cb_state f
  | None => Empty_set
  end.

Record State (callback : option AsyncFn) : Type := mkState {
  sched : Sched;
  callbacks : list (callback_state callback);  (* suspended callbacks *)
  reported : list Child;       (* the calls [callback(child)], oldest first *)
  cb_effects : list Effect;    (* what the callbacks did, oldest first *)
  console : list ConsoleMsg    (* [console.error] output of [crawl] *)
}.
Arguments mkState {callback}.
Arguments sched {callback}.
Arguments callbacks {callback}.
Arguments reported {callback}.
Arguments cb_effects {callback}.
Arguments console {callback}.

(** What [await results] yields in a state. *)
Definition deref (s : Sched) (r : ArrayRef) : list Child :=
  match r with FilesArray => files s end.

Definition result_value (s : Sched) : option (list Child) :=
  match results s with
  | Resolved r => Some (deref s r)
  | _ => None
  end.

(** [resolve(v)] settles a pending promise and does nothing otherwise. *)
Definition resolve (p : Promise) (v : ArrayRef) : Promise :=
  match p with
  | Pending => Resolved v
  | _ => p
  end.

(** [crawl({ path, callback, concurrent = 50 })] up to its [return]: the
    state in which the first tick finds the variables. *)
Definition crawl (path : jsstring) (callback : option AsyncFn)
  (concurrent : option nat) : State callback :=
  let concurrent := default 50 concurrent in
  {| sched :=
       {| files := []; folders := [path]; inProgress := [];
          interval := true; results := Pending;
          expansions := []; fetched := [] |};
     callbacks := []; reported := []; cb_effects := []; console := [] |}.

(** Lines 63-66. *)
Definition check (s : Sched) : Sched :=
  if (length (inProgress s) =? 0) && (length (folders s) =? 0) then
    {| files := files s; folders := folders s; inProgress := inProgress s;
       interval := false;
       results := resolve (results s) FilesArray;
       expansions := expansions s; fetched := fetched s |}
  else s.

(** Lines 35-41: the handler up to its first [await].  [last] is [None]
    exactly when [folders.length > 0] fails; the handler then goes to
    line 63. *)
Definition handler_start (E : Env) (s : Sched) : Sched :=
  match last (folders s) with
  | Some currentPath =>
      {| files := files s;
         folders := removelast (folders s);
         inProgress := inProgress s ++ [true];
         interval := interval s; results := results s;
         expansions := expansions s ++ [AwaitList currentPath];
         fetched := fetched s ++ [list_request E currentPath] |}
  | None => check s
  end.

(** Lines 60-66: the end of the handler that is suspended at index [i]. *)
Definition finish (i : nat) (s : Sched) : Sched :=
  check
    {| files := files s; folders := folders s;
       inProgress := removelast (inProgress s);
       interval := interval s; results := results s;
       expansions := delete i (expansions s);
       fetched := fetched s |}.

Definition push_file (child : Child) (s : Sched) : Sched :=
  {| files := files s ++ [child]; folders := folders s;
     inProgress := inProgress s; interval := interval s;
     results := results s; expansions := expansions s;
     fetched := fetched s |}.

Definition push_folder (p : jsstring) (s : Sched) : Sched :=
  {| files := files s; folders := folders s ++ [p];
     inProgress := inProgress s; interval := interval s;
     results := results s; expansions := expansions s;
     fetched := fetched s |}.

Definition set_expansion (i : nat) (x : Expansion) (s : Sched) : Sched :=
  {| files := files s; folders := folders s;
     inProgress := inProgress s; interval := interval s;
     results := results s; expansions := <[i := x]> (expansions s);
     fetched := fetched s |}.

Definition with_sched {callback} (s : Sched) (st : State callback)
  : State callback :=
  {| sched := s; callbacks := callbacks st; reported := reported st;
     cb_effects := cb_effects st; console := console st |}.

Definition console_error {callback} (m : ConsoleMsg) (st : State callback)
  : State callback :=
  {| sched := sched st; callbacks := callbacks st; reported := reported st;
     cb_effects := cb_effects st; console := console st ++ [m] |}.

(** A callback gave control back: it is suspended, or its promise is
    settled and a rejection reaches [.catch(console.error)]. *)
Definition settle {callback} (a : Async (callback_state callback))
  (pending : list (callback_state callback)) (st : State callback)
  : State callback :=
  match a with
  | Await k =>
      {| sched := sched st; callbacks := pending ++ [k];
         reported := reported st; cb_effects := cb_effects st;
         console := console st |}
  | Return =>
      {| sched := sched st; callbacks := pending;
         reported := reported st; cb_effects := cb_effects st;
         console := console st |}
  | Throw =>
      console_error CallbackRejected
        {| sched := sched st; callbacks := pending;
           reported := reported st; cb_effects := cb_effects st;
           console := console st |}
  end.

(** Lines 48-50: [if (callback) callback(child).catch(console.error)]. *)
Definition invoke_callback {callback} (child : Child)
  : State callback -> State callback :=
  match callback with
  | Some f => fun st =>
      let '(a, eff) := cb_start f child in
      settle (callback := Some f) a (callbacks st)
        {| sched := sched st; callbacks := callbacks st;
           reported := reported st ++ [child];
           cb_effects := cb_effects st ++ eff;
           console := console st |}
  | None => fun st => st
  end.

(** Lines 45-53: the body of [json.forEach]. *)
Definition visit {callback} (st : State callback) (child : Child)
  : State callback :=
  if has_ext child then
    invoke_callback child (with_sched (push_file child (sched st)) st)
  else
    with_sched (push_folder (path child) (sched st)) st.

Definition forEach {callback} (json : list Child) (st : State callback)
  : State callback :=
  fold_left visit json st.

(** Lines 41-66: the handler suspended at index [i] goes on when the call
    it awaits settles. *)
Definition handler_resume {callback} (E : Env) (i : nat) (x : Expansion)
  (st : State callback) : State callback :=
  match x with
  | AwaitList currentPath =>
      match fetch E (list_request E currentPath) with
      | Fulfilled resp =>
          if ok resp then
            with_sched (set_expansion i (AwaitJson currentPath resp) (sched st)) st
          else
            with_sched (finish i (sched st)) st
      | Rejected =>
          let st' := console_error (ErrorProcessing currentPath) st in
          with_sched (finish i (sched st')) st'
      end
  | AwaitJson currentPath resp =>
      match json resp with
      | Fulfilled json =>
          let st' := forEach json st in
          with_sched (finish i (sched st')) st'
      | Rejected =>
          let st' := console_error (ErrorProcessing currentPath) st in
          with_sched (finish i (sched st')) st'
      end
  end.

(** The callback suspended at index [j] goes on. *)
Definition callback_settles {callback} (j : nat)
  : State callback -> option (State callback) :=
  match callback with
  | Some f => fun st =>
      match callbacks st !! j with
      | Some k =>
          let '(a, eff) := cb_resume f k in
          Some (settle (callback := Some f) a (delete j (callbacks st))
                  {| sched := sched st; callbacks := callbacks st;
                     reported := reported st;
                     cb_effects := cb_effects st ++ eff;
                     console := console st |})
      | None => None
      end
  | None => fun _ => None
  end.

(** ** The event loop *)

Inductive Event : Type :=
  | Tick                          (* the interval timer fires *)
  | ExpansionSettles (i : nat)    (* the call awaited by handler [i] settles *)
  | CallbackSettles (j : nat).    (* the call awaited by callback [j] settles *)

(** One turn of the event loop; [None] when the event cannot happen. *)
Definition step {callback} (E : Env) (e : Event) (st : State callback)
  : option (State callback) :=
  match e with
  | Tick =>
      if interval (sched st)
      then Some (with_sched (handler_start E (sched st)) st)
      else None
  | ExpansionSettles i =>
      match expansions (sched st) !! i with
      | Some x => Some (handler_resume E i x st)
      | None => None
      end
  | CallbackSettles j => callback_settles j st
  end.

Fixpoint exec {callback} (E : Env) (events : list Event) (st : State callback)
  : option (State callback) :=
  match events with
  | [] => Some st
  | e :: rest =>
      match step E e st with
      | Some st' => exec E rest st'
      | None => None
      end
  end.

(** The number of folder expansions in flight. *)
Definition in_flight (s : Sched) : nat := length (inProgress s).

(** ** The scheduler on its own *)

(** What one child of a listing does to the variables of [crawl]. *)
Definition visit_sched (s : Sched) (child : Child) : Sched :=
  if has_ext child then push_file child s else push_folder (path child) s.

(** What the events of the timer and of the list calls do to the
    variables of [crawl], callbacks left out. *)
Definition sched_step (E : Env) (e : Event) (s : Sched) : option Sched :=
  match e with
  | Tick => if interval s then Some (handler_start E s) else None
  | ExpansionSettles i =>
      match expansions s !! i with
      | Some (AwaitList currentPath) =>
          match fetch E (list_request E currentPath) with
          | Fulfilled resp =>
              if ok resp
              then Some (set_expansion i (AwaitJson currentPath resp) s)
              else Some (finish i s)
          | Rejected => Some (finish i s)
          end
      | Some (AwaitJson currentPath resp) =>
          match json resp with
          | Fulfilled json => Some (finish i (fold_left visit_sched json s))
          | Rejected => Some (finish i s)
          end
      | None => None
      end
  | CallbackSettles _ => Some s
  end.

Definition is_scheduler_event (e : Event) : bool :=
  match e with
  | CallbackSettles _ => false
  | _ => true
  end.

(** The events of a run that are not settlements of callbacks. *)
Definition scheduler_events (events : list Event) : list Event :=
  filter (fun e => is_scheduler_event e = true) events.

(** A tick that finds no folder to expand while expansions are in flight:
    it leaves every variable as it was. *)
Definition idle_tick (e : Event) (s : Sched) : bool :=
  match e with
  | Tick => (length (folders s) =? 0) && negb (length (inProgress s) =? 0)
  | _ => false
  end.

Fixpoint sched_exec (E : Env) (events : list Event) (s : Sched) : option Sched :=
  match events with
  | [] => Some s
  | e :: rest =>
      match sched_step E e s with
      | Some s' => sched_exec E rest s'
      | None => None
      end
  end.

(** The scheduler's own choice of a next event: let the oldest suspended
    handler go on, and let the timer fire when none is suspended. *)
Definition next_event (s : Sched) : Event :=
  match expansions s with
  | [] => Tick
  | _ :: _ => ExpansionSettles 0
  end.

(** Run the event loop on [next_event] until [results] settles, for at
    most [fuel] turns. *)
Fixpoint run {callback} (E : Env) (fuel : nat) (st : State callback)
  : State callback :=
  match fuel with
  | 0 => st
  | S n =>
      match results (sched st) with
      | Pending =>
          match step E (next_event (sched st)) st with
          | Some st' => run E n st'
          | None => st
          end
      | _ => st
      end
  end.

(** The turns of a run that change the variables of [crawl]: all but the
    settlements of callbacks and the idle ticks. *)
Fixpoint progress_steps (E : Env) (events : list Event) (s : Sched) : nat :=
  match events with
  | [] => 0
  | e :: rest =>
      match sched_step E e s with
      | Some s' =>
          (if is_scheduler_event e && negb (idle_tick e s) then 1 else 0)
          + progress_steps E rest s'
      | None => 0
      end
  end.

(** What holds of the variables of [crawl] in every state: an expansion
    in flight is a suspended handler, and the promise is settled exactly
    when the timer is cleared, the frontier is empty and nothing is in
    flight. *)
Definition sched_inv (s : Sched) : Prop :=
  length (inProgress s) = length (expansions s)
  /\ match results s with
     | Pending => interval s = true /\ (folders s <> [] \/ inProgress s <> [])
     | Resolved _ => interval s = false /\ folders s = [] /\ inProgress s = []
     | Failed => False
     end.

(** ** The remote tree *)

(** The children the list call on [p] yields; none if the call fails at
    any stage. *)
Definition listing (E : Env) (p : jsstring) : list Child :=
  match fetch E (list_request E p) with
  | Fulfilled resp =>
      if ok resp then
        match json resp with
        | Fulfilled children => children
        | Rejected => []
        end
      else []
  | Rejected => []
  end.

(** The list call on [p] fails: the request is rejected, the response is
    not a success, or its body cannot be read as JSON. *)
Definition list_fails (E : Env) (p : jsstring) : bool :=
  match fetch E (list_request E p) with
  | Fulfilled resp =>
      if ok resp then
        match json resp with
        | Fulfilled _ => false
        | Rejected => true
        end
      else true
  | Rejected => true
  end.

Definition file_entries (l : list Child) : list Child := filter (fun c => has_ext c = true) l.
Definition folder_entries (l : list Child) : list jsstring :=
  path <$> filter (fun c => has_ext c = false) l.

(** Recursive listing from [p], [fuel] levels deep: the file entries met,
    and the folders listed. *)
Fixpoint files_under (E : Env) (fuel : nat) (p : jsstring) : list Child :=
  match fuel with
  | 0 => []
  | S n =>
      file_entries (listing E p)
      ++ mbind (files_under E n) (folder_entries (listing E p))
  end.

Fixpoint folders_under (E : Env) (fuel : nat) (p : jsstring) : list jsstring :=
  match fuel with
  | 0 => []
  | S n => p :: mbind (folders_under E n) (folder_entries (listing E p))
  end.

(** [q] is met when listing recursively from [p]. *)
Inductive reaches (E : Env) : jsstring -> jsstring -> Prop :=
  | reaches_here p : reaches E p p
  | reaches_below p q r :
      q ∈ folder_entries (listing E p) -> reaches E q r -> reaches E p r.

(** The remote store is a finite tree: [height] bounds the depth of what
    is below each folder. *)
Definition tree_like (E : Env) (height : jsstring -> nat) : Prop :=
  forall p q, q ∈ folder_entries (listing E p) -> height q < height p.

Definition reachable_files (E : Env) (height : jsstring -> nat) (root : jsstring)
  : list Child := files_under E (S (height root)) root.

Definition reachable_folders (E : Env) (height : jsstring -> nat)
  (root : jsstring) : list jsstring := folders_under E (S (height root)) root.

(** The folders listed strictly below [p]. *)
Definition below (E : Env) (height : jsstring -> nat) (p : jsstring)
  : list jsstring :=
  folder_entries (listing E p) ≫= reachable_folders E height.

(** A handler suspended at [resp.json()] holds the successful response of
    its list request. *)
Definition expansion_ok (E : Env) (x : Expansion) : Prop :=
  match x with
  | AwaitList _ => True
  | AwaitJson p resp => fetch E (list_request E p) = Fulfilled resp /\ ok resp = true
  end.

(** The folders that are known and not yet listed to the end. *)
Definition pending_paths (s : Sched) : list jsstring :=
  folders s ++ (expansion_path <$> expansions s).

(** Every file of the tree is recorded, or lies below a pending folder;
    every folder of the tree has been requested, or is in the frontier, or
    lies below one of those two. *)
Definition tree_inv (E : Env) (height : jsstring -> nat) (root : jsstring)
  (s : Sched) : Prop :=
  Forall (expansion_ok E) (expansions s)
  /\ files s ++ (pending_paths s ≫= reachable_files E height)
     ≡ₚ reachable_files E height root
  /\ fetched s
     ++ (list_request E <$>
           (folders s ≫= reachable_folders E height)
           ++ ((expansion_path <$> expansions s) ≫= below E height))
     ≡ₚ list_request E <$> reachable_folders E height root.

(** Turns still to come: three per folder that is not yet listed (tick,
    response, body), fewer for a handler that is under way, one for the
    resolution. *)
Definition folder_cost (E : Env) (height : jsstring -> nat) (p : jsstring) : nat :=
  3 * length (reachable_folders E height p).

Definition expansion_cost (E : Env) (height : jsstring -> nat) (x : Expansion)
  : nat :=
  match x with
  | AwaitList p => folder_cost E height p - 1
  | AwaitJson p _ => folder_cost E height p - 2
  end.

Definition turns_left (E : Env) (height : jsstring -> nat) (s : Sched) : nat :=
  (match results s with Pending => 1 | _ => 0 end)
  + sum_list_with (folder_cost E height) (folders s)
  + sum_list_with (expansion_cost E height) (expansions s).

(** ** The classifier as the specification words it *)

(** Collapse runs of white space to a single space, trim the ends. *)
Definition normalize (s : jsstring) : jsstring := trim (replace_whitespace s).

Definition root_text (d : Document) : jsstring :=
  match body d with Some e => textContent e | None => [] end.

Definition root_markup (d : Document) : jsstring :=
  match body d with Some e => innerHTML e | None => [] end.

(** [s] contains a run of three or more alphabetic characters. *)
Definition has_letter_run3 (s : jsstring) : Prop :=
  exists pre run post,
    s = pre ++ run ++ post /\ 3 <= length run
    /\ Forall (fun c => isAsciiLetter c = true) run.

(** The seven conditions of the specification, in its order. *)
Definition blank_conditions (d : Document) : Prop :=
  normalize (root_text d) = []
  \/ normalize (root_markup d) = []
  \/ normalize (root_text d) = [SPACE]
  \/ normalize (root_markup d) = [SPACE]
  \/ (exists e, body d = Some e /\ children e = [])
  \/ (exists e k, body d = Some e /\ children e = [k] /\ trim (textContent k) = [])
  \/ (length (normalize (root_text d)) < 20
      /\ ~ has_letter_run3 (normalize (root_text d))).

(** ** The unit of work per file, as the specification words it *)

(** The document the callback obtains for [item], if it gets that far:
    the path has the document extension, the source is fetched with
    success and its text is read. *)
Definition fetched_document (E : Env) (item : Child) : option Document :=
  if endsWith (path item) (js ".html") then
    match fetch E (authenticatedFetch E (source_url (path item)) no_options) with
    | Fulfilled resp =>
        if ok resp then
          match text resp with
          | Fulfilled t => Some (parseFromString E t)
          | Rejected => None
          end
        else None
    | Rejected => None
    end
  else None.

(** ** Sample environments *)

Definition find_url {A} (mk : jsstring -> jsstring) (table : list (jsstring * A))
  (url : jsstring) : option A :=
  snd <$> find (fun e => str_eqb (mk (fst e)) url) table.

(** A remote store given by tables: the listing of each folder and the
    source text of each file.  Every other GET is rejected; every POST is
    acknowledged. *)
Definition table_fetch (lists : list (jsstring * list Child))
  (sources : list (jsstring * jsstring)) (r : Request) : Settled Response :=
  match req_method r with
  | POST => Fulfilled {| ok := true; json := Rejected; text := Fulfilled [] |}
  | GET =>
      match find_url list_url lists (req_url r) with
      | Some children =>
          Fulfilled {| ok := true; json := Fulfilled children; text := Rejected |}
      | None =>
          match find_url source_url sources (req_url r) with
          | Some t =>
              Fulfilled {| ok := true; json := Rejected; text := Fulfilled t |}
          | None => Rejected
          end
      end
  end.

Definition file_entry (p : string) : Child :=
  {| path := js p; ext := Some (js "html") |}.
Definition folder_entry (p : string) : Child :=
  {| path := js p; ext := None |}.

(** [<body><p>Hello world</p></body>] *)
Definition hello_body : Element :=
  {| textContent := js "Hello world";
     innerHTML := js "<p>Hello world</p>";
     outerHTML := js "<body><p>Hello world</p></body>";
     children :=
       [ {| textContent := js "Hello world"; innerHTML := js "Hello world";
            outerHTML := js "<p>Hello world</p>"; children := [] |} ] |}.

(** One folder [/r] holding one page whose body is [hello_body]. *)
Definition one_page_env : Env :=
  {| bearerToken := js "token";
     fetch := table_fetch [(js "/r", [file_entry "/r/a.html"])]
                [(js "/r/a.html", js "<p>Hello world</p>")];
     parseFromString := fun _ => {| body := Some hello_body |} |}.

(** The same store behind a parser that yields no body. *)
Definition no_body_env : Env :=
  {| bearerToken := js "token";
     fetch := fetch one_page_env;
     parseFromString := fun _ => {| body := None |} |}.

(** A root folder that lists [n] folders and nothing else. *)
Definition wide_children (n : nat) : list Child :=
  (fun i => {| path := js "/audemars-piguet/fondationsaudemarspiguet/" ++ [N.of_nat (48 + i)];
               ext := None |}) <$> seq 0 n.

Definition main_path : jsstring := js "/audemars-piguet/fondationsaudemarspiguet".

Definition wide_env (n : nat) : Env :=
  {| bearerToken := js "token";
     fetch := table_fetch [(main_path, wide_children n)] [];
     parseFromString := fun _ => {| body := None |} |}.

(** The turns that bring [k] expansions in flight on [wide_env]: the root
    is listed, then the timer fires [k] times before any list call
    settles. *)
Definition burst (k : nat) : list Event :=
  [Tick; ExpansionSettles 0; ExpansionSettles 0] ++ replicate k Tick.

(** An async function that fails at once, whatever its argument. *)
Definition failing_callback : AsyncFn :=
  {| cb_state := Empty_set;
     cb_start := fun _ => (Throw, []);
     cb_resume := fun k => match k with end |}.

(** An async function that suspends once and fails when it goes on. *)
Definition late_failing_callback : AsyncFn :=
  {| cb_state := unit;
     cb_start := fun _ => (Await tt, []);
     cb_resume := fun _ => (Throw, []) |}.

(** A store on which every request is rejected. *)
Definition unreachable_env : Env :=
  {| bearerToken := js "token";
     fetch := fun _ => Rejected;
     parseFromString := fun _ => {| body := None |} |}.

(** A folder [/r] with two pages and a folder [/r/d] with one page. *)
Definition small_tree_env : Env :=
  {| bearerToken := js "token";
     fetch :=
       table_fetch
         [(js "/r", [file_entry "/r/a.html"; folder_entry "/r/d";
                     file_entry "/r/b.html"]);
          (js "/r/d", [file_entry "/r/d/c.html"])]
         [(js "/r/a.html", js "<p>Hello world</p>")];
     parseFromString := fun _ => {| body := Some hello_body |} |}.

Definition small_tree_height (p : jsstring) : nat :=
  if str_eqb p (js "/r") then 1 else 0.

(** The same tree when the list call on [/r/d] is rejected. *)
Definition broken_tree_env : Env :=
  {| bearerToken := js "token";
     fetch :=
       table_fetch
         [(js "/r", [file_entry "/r/a.html"; folder_entry "/r/d";
                     file_entry "/r/b.html"])]
         [];
     parseFromString := fun _ => {| body := Some hello_body |} |}.

(** ** Notions for the properties of the whole script *)

(** The value of header [name] in a header object written as the list of
    its assignments: the last one wins. *)
Definition header_value (name : jsstring) (headers : list (jsstring * jsstring))
  : option jsstring :=
  snd <$> last (filter (fun h => fst h = name) headers).

(** The requests among the effects, oldest first. *)
Definition requests_of (effs : list Effect) : list Request :=
  omap (fun e => match e with Requested r => Some r | Logged _ => None end) effs.

(** The test of line 80. *)
Definition is_document (item : Child) : bool := endsWith (path item) (js ".html").

(** The GET of line 83 and the POST of line 136 for [item]. *)
Definition source_request (E : Env) (item : Child) : Request :=
  authenticatedFetch E (source_url (path item)) no_options.

Definition publish_request (E : Env) (item : Child) (html : jsstring) : Request :=
  authenticatedFetch E (source_url (path item)) (publish_options html).

(** One of the calls the callback awaits for [item] is rejected: the GET,
    the reading of its text, or the POST of a page that is not blank. *)
Definition callback_rejects (E : Env) (item : Child) : Prop :=
  is_document item = true
  /\ (fetch E (source_request E item) = Rejected
      \/ exists resp,
           fetch E (source_request E item) = Fulfilled resp /\ ok resp = true
           /\ (text resp = Rejected
               \/ exists t root,
                    text resp = Fulfilled t
                    /\ body (parseFromString E t) = Some root
                    /\ isBlankPage (Some root) = false
                    /\ fetch E (publish_request E item (outerHTML root)) = Rejected)).



Definition is_tick (e : Event) : bool :=
  match e with Tick => true | _ => false end.

(** The number of times the timer fired in a run. *)
Definition ticks (events : list Event) : nat :=
  length (filter (fun e => is_tick e = true) events).



(** Some folder that leads to [p] is in the frontier or being listed. *)
Definition leads_to_cycle (E : Env) (p : jsstring) (s : Sched) : Prop :=
  Forall (expansion_ok E) (expansions s)
  /\ exists q, q ∈ pending_paths s /\ reaches E q p.

(** A folder that lists itself. *)
Definition self_listing_env : Env :=
  {| bearerToken := js "token";
     fetch := table_fetch [(js "/r", [folder_entry "/r"])] [];
     parseFromString := fun _ => {| body := None |} |}.

(** A root whose listing names the folder [/r/d] twice. *)
Definition twice_listed_env : Env :=
  {| bearerToken := js "token";
     fetch := table_fetch
                [(js "/r", [folder_entry "/r/d"; folder_entry "/r/d"]);
                 (js "/r/d", [file_entry "/r/d/c.html"])] [];
     parseFromString := fun _ => {| body := None |} |}.




(** The list call on [p] is rejected, at the request or at the reading of
    the body: the two ways into the [catch] of line 56. *)
Definition list_rejected (E : Env) (p : jsstring) : Prop :=
  fetch E (list_request E p) = Rejected
  \/ exists resp, fetch E (list_request E p) = Fulfilled resp
                  /\ ok resp = true /\ json resp = Rejected.

(** What a line of the console says of the list calls. *)
Definition console_ok (E : Env) (m : ConsoleMsg) : Prop :=
  match m with
  | ErrorProcessing p => list_rejected E p
  | _ => True
  end.

(** [<body><p>...</p></body>] around a short text in Cyrillic. *)
Definition cyrillic_body : Element :=
  let t : jsstring := [1055; 1088; 1080; 1074; 1077; 1090; 32; 1084; 1080; 1088]%N in
  {| textContent := t;
     innerHTML := js "<p>" ++ t ++ js "</p>";
     outerHTML := js "<body><p>" ++ t ++ js "</p></body>";
     children := [ {| textContent := t; innerHTML := t;
                      outerHTML := js "<p>" ++ t ++ js "</p>";
                      children := [] |} ] |}.

(** Every white-space code unit of [s] is a space that stands before a
    code unit that is not white space. *)
Fixpoint single_spaced (s : jsstring) : bool :=
  match s with
  | [] => true
  | c :: r =>
      (if isWhiteSpace c then
         (c =? SPACE)%N
         && match r with
            | d :: _ => negb (isWhiteSpace d)
            | [] => false
            end
       else true)
      && single_spaced r
  end.

(** The requests with method GET among the effects. *)
Definition get_calls (effs : list Effect) : list Request :=
  omap (fun e => match e with
                 | Requested r =>
                     match req_method r with GET => Some r | POST => None end
                 | Logged _ => None
                 end) effs.

(** * Properties *)

(** ** Strings *)

Lemma str_eqb_eq (a b : jsstring) : str_eqb a b = true <-> a = b.
Proof. unfold str_eqb. apply bool_decide_eq_true. Qed.

Lemma trimStart_SPACE (s : jsstring) : trimStart (SPACE :: s) = trimStart s.
Proof. reflexivity. Qed.

Lemma trimEnd_cons (c : N) (s : jsstring) :
  trimEnd (c :: s) =
  match trimEnd s with
  | [] => if isWhiteSpace c then [] else [c]
  | r' => c :: r'
  end.
Proof. reflexivity. Qed.

Lemma trimEnd_SPACE (s : jsstring) :
  trimEnd (SPACE :: s) = match trimEnd s with [] => [] | r' => SPACE :: r' end.
Proof. rewrite trimEnd_cons. by destruct (trimEnd s). Qed.

Lemma trimStart_replace_ws_runs (b b' : bool) (s : jsstring) :
  trimStart (replace_ws_runs b s) = replace_ws_runs b' (trimStart s).
Proof.
  revert b b'. induction s as [|c r IH]; intros b b'; [done|].
  cbn [replace_ws_runs trimStart].
  destruct (isWhiteSpace c) eqn:Hc.
  - destruct b; [|rewrite trimStart_SPACE]; apply IH.
  - cbn [replace_ws_runs trimStart]. rewrite Hc. reflexivity.
Qed.

Lemma trimEnd_idem (s : jsstring) : trimEnd (trimEnd s) = trimEnd s.
Proof.
  induction s as [|c r IH]; [done|].
  rewrite trimEnd_cons.
  destruct (trimEnd r) as [|y t] eqn:Ht.
  - destruct (isWhiteSpace c) eqn:Hc; [done|].
    rewrite trimEnd_cons. simpl. by rewrite Hc.
  - rewrite trimEnd_cons, IH. reflexivity.
Qed.

Lemma trimEnd_nil_replace (b : bool) (s : jsstring) :
  trimEnd s = [] -> trimEnd (replace_ws_runs b s) = [].
Proof.
  revert b. induction s as [|c r IH]; intros b; [done|].
  rewrite trimEnd_cons. cbn [replace_ws_runs].
  destruct (trimEnd r) eqn:Hr; [|done].
  destruct (isWhiteSpace c) eqn:Hc; [|done]. intros _.
  destruct b; [by apply IH|].
  rewrite trimEnd_SPACE. by rewrite IH.
Qed.

Lemma replace_ws_runs_nil (b : bool) (s : jsstring) :
  replace_ws_runs b s = [] -> trimEnd s = [].
Proof.
  revert b. induction s as [|c r IH]; intros b; [done|].
  rewrite trimEnd_cons. cbn [replace_ws_runs].
  destruct (isWhiteSpace c) eqn:Hc; [|done].
  destruct b; [|done]. intros H. by rewrite (IH _ H).
Qed.

Lemma replace_trimEnd_not_nil (b : bool) (s : jsstring) :
  trimEnd s <> [] -> replace_ws_runs b (trimEnd s) <> [].
Proof.
  intros Hne Hnil. apply replace_ws_runs_nil in Hnil.
  rewrite trimEnd_idem in Hnil. done.
Qed.

Lemma replace_ws_runs_cons (b : bool) (c : N) (s : jsstring) :
  replace_ws_runs b (c :: s) =
  if isWhiteSpace c
  then (if b then replace_ws_runs true s else SPACE :: replace_ws_runs true s)
  else c :: replace_ws_runs false s.
Proof. reflexivity. Qed.

Lemma trimEnd_replace_ws_runs (b : bool) (s : jsstring) :
  trimEnd (replace_ws_runs b s) = replace_ws_runs b (trimEnd s).
Proof.
  revert b. induction s as [|c r IH]; intros b; [done|].
  rewrite trimEnd_cons, replace_ws_runs_cons.
  pose proof (replace_trimEnd_not_nil true r) as Ht.
  pose proof (replace_trimEnd_not_nil false r) as Hf.
  destruct (isWhiteSpace c) eqn:Hc.
  - destruct b.
    + rewrite IH. destruct (trimEnd r) as [|x r'] eqn:Hr; [done|].
      rewrite (replace_ws_runs_cons true c), Hc. reflexivity.
    + rewrite trimEnd_SPACE, IH.
      destruct (trimEnd r) as [|x r'] eqn:Hr; [done|].
      rewrite (replace_ws_runs_cons false c), Hc.
      destruct (replace_ws_runs true (x :: r')); [|done].
      exfalso. by apply Ht.
  - rewrite trimEnd_cons, IH.
    destruct (trimEnd r) as [|x r'] eqn:Hr.
    + rewrite (replace_ws_runs_cons b c), Hc. reflexivity.
    + rewrite (replace_ws_runs_cons b c), Hc.
      destruct (replace_ws_runs false (x :: r')); [|done].
      exfalso. by apply Hf.
Qed.

Lemma trimStart_idem (s : jsstring) : trimStart (trimStart s) = trimStart s.
Proof.
  induction s as [|c r IH]; [done|]. cbn [trimStart].
  destruct (isWhiteSpace c) eqn:Hc; [done|]. cbn [trimStart]. by rewrite Hc.
Qed.

Lemma trimStart_trimEnd (s : jsstring) :
  trimStart (trimEnd s) = trimEnd (trimStart s).
Proof.
  induction s as [|c r IH]; [done|].
  rewrite trimEnd_cons. cbn [trimStart].
  destruct (isWhiteSpace c) eqn:Hc.
  - rewrite <- IH. destruct (trimEnd r) as [|x r'] eqn:Hr; [done|].
    cbn [trimStart]. by rewrite Hc.
  - rewrite trimEnd_cons.
    destruct (trimEnd r) as [|x r'] eqn:Hr; cbn [trimStart]; by rewrite Hc.
Qed.

Lemma trim_idem (s : jsstring) : trim (trim s) = trim s.
Proof.
  unfold trim. rewrite trimStart_trimEnd, trimStart_idem.
  apply trimEnd_idem.
Qed.

Lemma trim_replace_whitespace (s : jsstring) :
  trim (replace_whitespace s) = replace_whitespace (trim s).
Proof.
  unfold trim, replace_whitespace.
  rewrite (trimStart_replace_ws_runs false false), trimEnd_replace_ws_runs.
  reflexivity.
Qed.

(** Trimming before the white space is collapsed changes nothing: the
    script's [cleanText] is the normalized text. *)
Lemma normalize_trim (s : jsstring) :
  trim (replace_whitespace (trim s)) = normalize s.
Proof.
  unfold normalize. rewrite !trim_replace_whitespace, trim_idem. reflexivity.
Qed.

Lemma letters_prefix_take (s : jsstring) :
  Forall (fun c => isAsciiLetter c = true) (take (letters_prefix s) s)
  /\ length (take (letters_prefix s) s) = letters_prefix s.
Proof.
  induction s as [|c r [IH1 IH2]]; simpl; [by split|].
  destruct (isAsciiLetter c) eqn:Hc; simpl; [|by split].
  split; [by constructor | by rewrite IH2].
Qed.

Lemma letters_prefix_app (run post : jsstring) :
  Forall (fun c => isAsciiLetter c = true) run ->
  length run <= letters_prefix (run ++ post).
Proof.
  induction 1 as [|c run Hc _ IH]; simpl; [lia|]. rewrite Hc. lia.
Qed.

Lemma match_letters3_spec (s : jsstring) :
  match_letters3 s = true <-> has_letter_run3 s.
Proof.
  split.
  - induction s as [|c r IH]; [done|].
    cbn [match_letters3]. rewrite orb_true_iff, Nat.leb_le.
    intros [Hhere | Hlater].
    + destruct (letters_prefix_take (c :: r)) as [Hall Hlen].
      exists [], (take (letters_prefix (c :: r)) (c :: r)),
        (drop (letters_prefix (c :: r)) (c :: r)).
      split; [by rewrite app_nil_l, take_drop|].
      split; [lia | done].
    + destruct (IH Hlater) as (pre & run & post & -> & Hlen & Hall).
      by exists (c :: pre), run, post.
  - intros (pre & run & post & -> & Hlen & Hall).
    induction pre as [|c pre IH].
    + pose proof (letters_prefix_app run post Hall) as Hle.
      destruct run as [|c run]; [simpl in Hlen; lia|].
      rewrite app_nil_l. change ((c :: run) ++ post) with (c :: (run ++ post)) in *.
      cbn [match_letters3]. apply orb_true_iff. left. apply Nat.leb_le. lia.
    + change ((c :: pre) ++ run ++ post) with (c :: (pre ++ run ++ post)).
      cbn [match_letters3]. rewrite IH. apply orb_true_r.
Qed.

(** ** The classifier *)

Lemma cleanText_normalize (d : Document) :
  cleanText (body d) = normalize (root_text d).
Proof.
  unfold cleanText, bodyText, root_text.
  destruct (body d); [apply normalize_trim | reflexivity].
Qed.

Lemma cleanHTML_normalize (d : Document) :
  cleanHTML (body d) = normalize (root_markup d).
Proof.
  unfold cleanHTML, bodyHTML, root_markup.
  destruct (body d); [apply normalize_trim | reflexivity].
Qed.

Lemma no_child_elements_spec (b : option Element) :
  no_child_elements b = true <-> exists e, b = Some e /\ children e = [].
Proof.
  unfold no_child_elements. destruct b as [e|].
  - rewrite Nat.eqb_eq. split.
    + intros H. exists e. split; [done|]. by apply length_zero_iff_nil.
    + intros (e' & [= <-] & ->). done.
  - split; [done | by intros (e & ? & _)].
Qed.

Lemma only_empty_child_spec (b : option Element) :
  only_empty_child b = true <->
  exists e k, b = Some e /\ children e = [k] /\ trim (textContent k) = [].
Proof.
  unfold only_empty_child. destruct b as [e|].
  - rewrite andb_true_iff, Nat.eqb_eq. split.
    + intros [Hlen Hk]. destruct (children e) as [|k [|k' l]] eqn:Hch; try done.
      simpl in Hk. apply str_eqb_eq in Hk. by exists e, k.
    + intros (e' & k & [= <-] & -> & Hk). split; [done|].
      simpl. by apply str_eqb_eq.
  - split; [done | by intros (e & k & ? & _)].
Qed.

Lemma isBlankPage_spec (d : Document) :
  isBlankPage (body d) = true <-> blank_conditions d.
Proof.
  unfold isBlankPage, blank_conditions.
  rewrite !orb_true_iff, andb_true_iff, negb_true_iff, !str_eqb_eq,
    !Nat.eqb_eq, Nat.ltb_lt, no_child_elements_spec, only_empty_child_spec,
    !length_zero_iff_nil, cleanText_normalize, cleanHTML_normalize.
  assert (Hrun : match_letters3 (normalize (root_text d)) = false
                 <-> ~ has_letter_run3 (normalize (root_text d))).
  { rewrite <- match_letters3_spec. by destruct (match_letters3 _). }
  rewrite Hrun. tauto.
Qed.

(** C4: [classify] answers [Blank] exactly when one of the seven
    conditions of the specification holds for the normalized text and
    markup of the root element, and [Substantive] exactly when none
    does. *)
Theorem classify_blank_iff_seven_conditions (d : Document) :
  (classify d = Blank <-> blank_conditions d)
  /\ (classify d = Substantive <-> ~ blank_conditions d).
Proof.
  unfold classify. rewrite <- isBlankPage_spec.
  destruct (isBlankPage (body d)); split; split; try done.
Qed.

(** Cases of the specification's own list of examples. *)
Example classify_no_children :
  classify {| body := Some {| textContent := js "some text of the page";
                              innerHTML := js "some text of the page";
                              outerHTML := js "<body>some text of the page</body>";
                              children := [] |} |} = Blank.
Proof. reflexivity. Qed.

Example classify_hello : classify {| body := Some hello_body |} = Substantive.
Proof. reflexivity. Qed.

Example classify_spaces :
  classify {| body := Some {| textContent := js "   "; innerHTML := js "   ";
                              outerHTML := js "<body>   </body>";
                              children := [] |} |} = Blank.
Proof. reflexivity. Qed.

Example classify_empty_div :
  classify
    {| body := Some {| textContent := []; innerHTML := js "<div></div>";
                       outerHTML := js "<body><div></div></body>";
                       children :=
                         [ {| textContent := []; innerHTML := [];
                              outerHTML := js "<div></div>";
                              children := [] |} ] |} |} = Blank.
Proof. reflexivity. Qed.

Example classify_short_word :
  classify
    {| body := Some {| textContent := js "ok testing 12";
                       innerHTML := js "<p>ok</p><p>testing 12</p>";
                       outerHTML := js "<body><p>ok</p><p>testing 12</p></body>";
                       children :=
                         [ {| textContent := js "ok"; innerHTML := js "ok";
                              outerHTML := js "<p>ok</p>"; children := [] |};
                           {| textContent := js "testing 12";
                              innerHTML := js "testing 12";
                              outerHTML := js "<p>testing 12</p>";
                              children := [] |} ] |} |} = Substantive.
Proof. reflexivity. Qed.

Example classify_digits_only :
  classify
    {| body := Some {| textContent := js "12 34 56 78 90";
                       innerHTML := js "<p>12 34</p><p> 56 78 90</p>";
                       outerHTML := js "<body><p>12 34</p><p> 56 78 90</p></body>";
                       children :=
                         [ {| textContent := js "12 34"; innerHTML := js "12 34";
                              outerHTML := js "<p>12 34</p>"; children := [] |};
                           {| textContent := js " 56 78 90";
                              innerHTML := js " 56 78 90";
                              outerHTML := js "<p> 56 78 90</p>";
                              children := [] |} ] |} |} = Blank.
Proof. reflexivity. Qed.

Example clean_digits :
  cleanText (Some {| textContent := js " 12 34   56 78 90 "; innerHTML := [];
                     outerHTML := []; children := [] |}) = js "12 34 56 78 90"
  /\ match_letters3 (js "12 34 56 78 90") = false
  /\ match_letters3 (js "ok testing 12") = true.
Proof. repeat split; reflexivity. Qed.

(** ** The unit of work per file *)

Lemma isBlankPage_no_body : isBlankPage None = true.
Proof. reflexivity. Qed.

(** C5: a whole run of the callback on [item] ends, and it calls publish
    once when it obtained a document that classifies as [Substantive]:
    one POST to the URL the source was fetched from, whose [data] field is
    the [outerHTML] of the body.  When the document is [Blank], or no
    document was obtained, it calls publish zero times. *)
Theorem publish_once_iff_substantive (E : Env) (item : Child) :
  exists outcome effs,
    run_async (callback E) 3 item = Some (outcome, effs)
    /\ match fetched_document E item with
       | Some d =>
           match classify d with
           | Substantive =>
               exists root req,
                 body d = Some root
                 /\ publish_calls effs = [req]
                 /\ req_url req = source_url (path item)
                 /\ req_method req = POST
                 /\ req_body req =
                      Some [(js "data",
                             {| blob_parts := [outerHTML root];
                                blob_type := js "text/html" |})]
                 /\ Requested
                      (authenticatedFetch E (source_url (path item)) no_options)
                    ∈ effs
           | Blank => publish_calls effs = []
           end
       | None => publish_calls effs = []
       end.
Proof.
  unfold run_async, fetched_document, classify.
  cbn [callback cb_start cb_resume]. unfold callback_start.
  destruct (endsWith (path item) (js ".html")) eqn:Hext; cbn [negb];
    [|by eexists _, _].
  cbn [resume_all cb_resume callback callback_resume].
  destruct (fetch E (authenticatedFetch E (source_url (path item)) no_options))
    as [resp|] eqn:Hfetch; [|by eexists _, _].
  destruct (ok resp) eqn:Hok; cbn [negb]; [|by eexists _, _].
  cbn [resume_all cb_resume callback callback_resume].
  destruct (text resp) as [t|] eqn:Htext; [|by eexists _, _].
  unfold inspect_and_publish.
  destruct (isBlankPage (body (parseFromString E t))) eqn:Hblank;
    [by eexists _, _|].
  destruct (body (parseFromString E t)) as [root|] eqn:Hbody;
    [|by rewrite isBlankPage_no_body in Hblank].
  cbn [resume_all cb_resume callback callback_resume].
  set (req := authenticatedFetch E (source_url (path item))
                (publish_options (outerHTML root))).
  assert (Hget : req_method (authenticatedFetch E (source_url (path item)) no_options) = GET)
    by reflexivity.
  destruct (fetch E req); eexists _, _; (split; [reflexivity|]);
    exists root, req; repeat split; try reflexivity;
    cbn [app]; apply elem_of_cons; by left.
Qed.

(** C10: when the parser yields a document without body, the callback
    takes the text and the markup to be empty, finds the page blank, and
    its run ends normally without a publish call. *)
Theorem no_body_is_blank_and_unpublished (E : Env) (item : Child) (d : Document) :
  fetched_document E item = Some d ->
  body d = None ->
  bodyText (body d) = [] /\ bodyHTML (body d) = []
  /\ cleanText (body d) = [] /\ cleanHTML (body d) = []
  /\ classify d = Blank
  /\ exists effs,
       run_async (callback E) 3 item = Some (true, effs)
       /\ publish_calls effs = [].
Proof.
  intros Hdoc Hbody. unfold classify. rewrite Hbody.
  repeat (split; [reflexivity|]).
  revert Hdoc. unfold run_async, fetched_document.
  cbn [callback cb_start cb_resume]. unfold callback_start.
  destruct (endsWith (path item) (js ".html")); [|done]. cbn [negb].
  cbn [resume_all cb_resume callback callback_resume].
  destruct (fetch E _) as [resp|]; [|done].
  destruct (ok resp); [|done]. cbn [negb].
  cbn [resume_all cb_resume callback callback_resume].
  destruct (text resp) as [t|]; [|done]. intros [= Hd].
  unfold inspect_and_publish. rewrite Hd, Hbody, isBlankPage_no_body.
  by eexists.
Qed.

Lemma no_body_is_blank_and_unpublished_witness :
  let item := file_entry "/r/a.html" in
  let d := {| body := None |} in
  bodyText (body d) = [] /\ bodyHTML (body d) = []
  /\ cleanText (body d) = [] /\ cleanHTML (body d) = []
  /\ classify d = Blank
  /\ exists effs,
       run_async (callback no_body_env) 3 item = Some (true, effs)
       /\ publish_calls effs = [].
Proof.
  intros item d.
  apply (no_body_is_blank_and_unpublished no_body_env item d); reflexivity.
Defined.

(** ** The scheduler and the callbacks *)

Lemma sched_settle {callback} (a : Async (callback_state callback))
    (pending : list (callback_state callback)) (st : State callback) :
  sched (settle a pending st) = sched st.
Proof. by destruct a. Qed.

Lemma reported_settle {callback} (a : Async (callback_state callback))
    (pending : list (callback_state callback)) (st : State callback) :
  reported (settle a pending st) = reported st.
Proof. by destruct a. Qed.

Lemma sched_invoke_callback {callback} (child : Child) (st : State callback) :
  sched (invoke_callback child st) = sched st.
Proof.
  destruct callback as [f|]; [|done]. cbn [invoke_callback].
  destruct (cb_start f child) as [a eff]. by rewrite sched_settle.
Qed.

Lemma sched_visit {callback} (st : State callback) (child : Child) :
  sched (visit st child) = visit_sched (sched st) child.
Proof.
  unfold visit, visit_sched. destruct (has_ext child); [|done].
  by rewrite sched_invoke_callback.
Qed.

Lemma sched_forEach {callback} (json : list Child) (st : State callback) :
  sched (forEach json st) = fold_left visit_sched json (sched st).
Proof.
  unfold forEach. revert st. induction json as [|c json IH]; intros st; [done|].
  cbn [fold_left]. by rewrite IH, sched_visit.
Qed.

Lemma sched_callback_settles {callback} (j : nat) (st st' : State callback) :
  callback_settles j st = Some st' -> sched st' = sched st.
Proof.
  destruct callback as [f|]; [|done]. cbn [callback_settles].
  destruct (callbacks st !! j) as [k|]; [|done].
  destruct (cb_resume f k) as [a eff]. intros [= <-]. by rewrite sched_settle.
Qed.

(** The variables of [crawl] move by [sched_step], whatever the
    callbacks do. *)
Lemma sched_of_step {callback} (E : Env) (e : Event) (st st' : State callback) :
  step E e st = Some st' -> sched_step E e (sched st) = Some (sched st').
Proof.
  destruct e as [|i|j]; cbn [step sched_step].
  - destruct (interval (sched st)); [|done]. by intros [= <-].
  - destruct (expansions (sched st) !! i) as [[p|p resp]|]; [| |done];
      intros [= <-]; cbn [handler_resume].
    + destruct (fetch E (list_request E p)) as [resp|]; [|done].
      by destruct (ok resp).
    + destruct (json resp) as [json|]; [|done].
      cbn [with_sched sched]. by rewrite sched_forEach.
  - intros H. by rewrite (sched_callback_settles _ _ _ H).
Qed.

Lemma sched_of_exec {callback} (E : Env) (events : list Event) (st st' : State callback) :
  exec E events st = Some st' -> sched_exec E events (sched st) = Some (sched st').
Proof.
  revert st. induction events as [|e events IH]; intros st; cbn [exec sched_exec].
  - by intros [= <-].
  - destruct (step E e st) as [st1|] eqn:Hstep; [|done].
    rewrite (sched_of_step _ _ _ _ Hstep). apply IH.
Qed.

Lemma sched_exec_scheduler_events (E : Env) (events : list Event) (s : Sched) :
  sched_exec E (scheduler_events events) s = sched_exec E events s.
Proof.
  revert s. induction events as [|e events IH]; intros s; [done|].
  unfold scheduler_events in *. destruct e as [|i|j].
  - rewrite filter_cons_True by done. cbn [sched_exec].
    destruct (sched_step E Tick s); [apply IH | done].
  - rewrite filter_cons_True by done. cbn [sched_exec].
    destruct (sched_step E (ExpansionSettles i) s); [apply IH | done].
  - rewrite filter_cons_False by done. cbn [sched_exec sched_step]. apply IH.
Qed.

Lemma fold_visit_sched (json : list Child) (s : Sched) :
  let s' := fold_left visit_sched json s in
  files s' = files s ++ file_entries json
  /\ folders s' = folders s ++ folder_entries json
  /\ inProgress s' = inProgress s /\ interval s' = interval s
  /\ results s' = results s /\ expansions s' = expansions s
  /\ fetched s' = fetched s.
Proof.
  revert s. induction json as [|c json IH]; intros s; cbn zeta.
  - unfold file_entries, folder_entries. cbn. by rewrite !app_nil_r.
  - cbn [fold_left]. destruct (IH (visit_sched s c)) as (H1 & H2 & H3 & H4 & H5 & H6 & H7).
    rewrite H1, H2, H3, H4, H5, H6, H7. clear.
    unfold visit_sched, file_entries, folder_entries.
    destruct (has_ext c) eqn:Hc.
    + rewrite filter_cons_True by done.
      rewrite (filter_cons_False (λ c, has_ext c = false)) by congruence.
      cbn. by rewrite <- app_assoc.
    + rewrite filter_cons_False by congruence.
      rewrite (filter_cons_True (λ c, has_ext c = false)) by done.
      cbn. by rewrite <- app_assoc.
Qed.

Lemma length_zero_eqb {A} (l : list A) : (length l =? 0) = true <-> l = [].
Proof. rewrite Nat.eqb_eq. apply length_zero_iff_nil. Qed.

Lemma check_inv (s : Sched) :
  length (inProgress s) = length (expansions s) ->
  results s = Pending -> interval s = true ->
  sched_inv (check s).
Proof.
  intros Hlen Hres Hint. unfold check, sched_inv.
  destruct (length (inProgress s) =? 0) eqn:H1;
    [destruct (length (folders s) =? 0) eqn:H2|]; cbn [andb].
  - apply length_zero_eqb in H1, H2. cbn. rewrite Hres. cbn. done.
  - rewrite Hres. split; [done|]. split; [done|]. left. intros H.
    apply length_zero_eqb in H. congruence.
  - rewrite Hres. split; [done|]. split; [done|]. right. intros H.
    apply length_zero_eqb in H. congruence.
Qed.

Lemma sched_inv_pending (s : Sched) :
  sched_inv s -> interval s = true \/ inProgress s <> [] ->
  results s = Pending /\ interval s = true.
Proof.
  intros [_ H] Hor. destruct (results s); [tauto| |done].
  destruct H as (Hi & _ & Hp). destruct Hor; congruence.
Qed.

Lemma length_removelast {A} (l : list A) :
  length (removelast l) = pred (length l).
Proof.
  destruct (decide (l = [])) as [->|Hne]; [done|].
  apply last_is_Some in Hne as [x Hx]. apply last_Some in Hx as [l' ->].
  rewrite removelast_last, length_app. cbn. lia.
Qed.

Lemma finish_inv (i : nat) (s : Sched) :
  sched_inv s -> is_Some (expansions s !! i) -> sched_inv (finish i s).
Proof.
  intros Hinv Hi. pose proof Hinv as [Hlen _].
  assert (Hne : inProgress s <> []).
  { intros H. rewrite H in Hlen. apply lookup_lt_is_Some in Hi.
    cbn in Hlen. lia. }
  destruct (sched_inv_pending s Hinv (or_intror Hne)) as [Hres Hint].
  unfold finish. apply check_inv; cbn; [|done..].
  rewrite length_removelast, length_delete by done. lia.
Qed.

Lemma sched_step_inv (E : Env) (e : Event) (s s' : Sched) :
  sched_step E e s = Some s' -> sched_inv s -> sched_inv s'.
Proof.
  intros Hstep Hinv. destruct e as [|i|j]; cbn [sched_step] in Hstep.
  - destruct (interval s) eqn:Hint; [|done]. injection Hstep as <-.
    destruct (sched_inv_pending s Hinv (or_introl Hint)) as [Hres _].
    destruct Hinv as [Hlen _]. unfold handler_start.
    destruct (last (folders s)) as [p|] eqn:Hlast.
    + unfold sched_inv. cbn. rewrite Hres, !length_app, Hlen.
      split; [done|]. split; [done|]. right. by destruct (inProgress s).
    + by apply check_inv.
  - destruct (expansions s !! i) as [x|] eqn:Hi; [|done].
    assert (Hsome : is_Some (expansions s !! i)) by (by rewrite Hi).
    assert (Hset : forall y, sched_inv (set_expansion i y s)).
    { intros y. destruct Hinv as [Hlen Hres]. unfold sched_inv, set_expansion.
      cbn. by rewrite length_insert. }
    assert (Hfold : forall json, sched_inv (finish i (fold_left visit_sched json s))).
    { intros json.
      destruct (fold_visit_sched json s) as (H1 & H2 & H3 & H4 & H5 & H6 & H7).
      pose proof Hinv as [Hlen _].
      assert (Hne : inProgress s <> []).
      { intros H. rewrite H in Hlen. apply lookup_lt_is_Some in Hsome.
        cbn in Hlen. lia. }
      destruct (sched_inv_pending s Hinv (or_intror Hne)) as [Hres Hint].
      unfold finish. apply check_inv; cbn; [|congruence..].
      rewrite H3, H6, length_removelast, length_delete by done. lia. }
    destruct x as [p|p resp].
    + destruct (fetch E (list_request E p)) as [resp|].
      * destruct (ok resp); injection Hstep as <-; [apply Hset|by apply finish_inv].
      * injection Hstep as <-. by apply finish_inv.
    + destruct (json resp) as [json|]; injection Hstep as <-;
        [apply Hfold | by apply finish_inv].
  - by injection Hstep as <-.
Qed.

Lemma sched_exec_inv (E : Env) (events : list Event) (s s' : Sched) :
  sched_exec E events s = Some s' -> sched_inv s -> sched_inv s'.
Proof.
  revert s. induction events as [|e events IH]; intros s; cbn [sched_exec].
  - by intros [= <-].
  - destruct (sched_step E e s) as [s1|] eqn:Hstep; [|done].
    intros Hexec Hinv. eapply IH; [done|]. by eapply sched_step_inv.
Qed.

Lemma crawl_inv (path : jsstring) (callback : option AsyncFn)
    (concurrent : option nat) :
  sched_inv (sched (crawl path callback concurrent)).
Proof. unfold sched_inv. cbn. split; [done|]. split; [done|]. by left. Qed.

Lemma reachable_inv (E : Env) (path : jsstring) (callback : option AsyncFn)
    (concurrent : option nat) (events : list Event) (st : State callback) :
  exec E events (crawl path callback concurrent) = Some st ->
  sched_inv (sched st).
Proof.
  intros Hexec. apply sched_of_exec in Hexec.
  eapply sched_exec_inv; [done|]. apply crawl_inv.
Qed.

(** C2: in every state a call of [crawl] can reach, the promise [results]
    is resolved exactly when the frontier is empty and no expansion is in
    flight; it is then resolved with the array [files], and it is never
    rejected.  The in-flight count is the number of suspended handlers. *)
Theorem resolved_iff_frontier_empty_and_idle (E : Env) (path : jsstring)
    (callback : option AsyncFn) (concurrent : option nat)
    (events : list Event) (st : State callback) :
  exec E events (crawl path callback concurrent) = Some st ->
  (results (sched st) = Resolved FilesArray
   <-> folders (sched st) = [] /\ in_flight (sched st) = 0)
  /\ (result_value (sched st) = Some (files (sched st))
      <-> folders (sched st) = [] /\ in_flight (sched st) = 0)
  /\ results (sched st) <> Failed
  /\ in_flight (sched st) = length (expansions (sched st)).
Proof.
  intros Hexec. destruct (reachable_inv _ _ _ _ _ _ Hexec) as [Hlen Hres].
  unfold in_flight, result_value.
  destruct (results (sched st)) as [|[]|]; cbn in Hres;
    [| |by destruct Hres].
  - destruct Hres as [_ Hor].
    assert (Hbusy : ~ (folders (sched st) = [] /\ length (inProgress (sched st)) = 0)).
    { intros [H1 H2%length_zero_iff_nil]. tauto. }
    repeat split; done.
  - destruct Hres as (_ & Hf & Hp). rewrite Hf, Hp in *. by repeat split.
Qed.

Lemma reported_forEach (f : AsyncFn) (json : list Child) (st : State (Some f)) :
  reported (forEach json st) = reported st ++ file_entries json.
Proof.
  unfold forEach. revert st.
  induction json as [|c json IH]; intros st; cbn [fold_left].
  - unfold file_entries. cbn. by rewrite app_nil_r.
  - rewrite IH. unfold visit, file_entries. destruct (has_ext c) eqn:Hc.
    + rewrite filter_cons_True by done. cbn [invoke_callback].
      destruct (cb_start f c) as [a eff]. rewrite reported_settle. cbn.
      by rewrite <- app_assoc.
    + rewrite filter_cons_False by congruence. done.
Qed.

(** C7: whatever the callback does - return, stay suspended, or fail at
    once or later - every child of a listing is processed: each file
    entry is recorded and handed to the callback, each folder entry is
    pushed.  Two runs of [crawl] whose callbacks differ at will, but
    whose timer and list events are the same, have the same variables,
    the same suspended handlers and the same [results]; and [results] is
    not rejected. *)
Theorem callback_failure_does_not_abort_traversal (E : Env) (path : jsstring)
    (concurrent : option nat) (cb1 cb2 : option AsyncFn)
    (events1 events2 : list Event) (st1 : State cb1) (st2 : State cb2) :
  exec E events1 (crawl path cb1 concurrent) = Some st1 ->
  exec E events2 (crawl path cb2 concurrent) = Some st2 ->
  scheduler_events events1 = scheduler_events events2 ->
  sched st1 = sched st2
  /\ results (sched st1) <> Failed
  /\ (forall (f : AsyncFn) (json : list Child) (st : State (Some f)),
        files (sched (forEach json st)) = files (sched st) ++ file_entries json
        /\ folders (sched (forEach json st))
           = folders (sched st) ++ folder_entries json
        /\ reported (forEach json st) = reported st ++ file_entries json).
Proof.
  intros H1 H2 Hev. split; [|split].
  - apply sched_of_exec in H1, H2.
    rewrite <- sched_exec_scheduler_events in H1, H2.
    rewrite Hev in H1. change (sched (crawl path cb1 concurrent))
      with (sched (crawl path cb2 concurrent)) in H1. congruence.
  - destruct (reachable_inv _ _ _ _ _ _ H1) as [_ Hres].
    intros Hf. by rewrite Hf in Hres.
  - intros f json st. rewrite sched_forEach.
    destruct (fold_visit_sched json (sched st)) as (Hfi & Hfo & _).
    split; [done|]. split; [done|]. apply reported_forEach.
Qed.

(** C6: there is a run in which [results] is resolved, with the file that
    was found, while the callback of that file is still suspended at its
    first [await]; its publish call is made after the resolution. *)
Theorem crawl_resolves_while_callback_runs :
  exists (events later : list Event)
         (st st' : State (Some (callback one_page_env))),
    exec one_page_env events
      (crawl (js "/r") (Some (callback one_page_env)) None) = Some st
    /\ result_value (sched st) = Some [file_entry "/r/a.html"]
    /\ callbacks st = [AwaitSource (file_entry "/r/a.html")]
    /\ publish_calls (cb_effects st) = []
    /\ exec one_page_env later st = Some st'
    /\ length (publish_calls (cb_effects st')) = 1
    /\ callbacks st' <> [].
Proof.
  exists [Tick; ExpansionSettles 0; ExpansionSettles 0],
    [CallbackSettles 0; CallbackSettles 0].
  eexists _, _.
  split; [reflexivity|].
  split; [reflexivity|]. split; [reflexivity|]. split; [reflexivity|].
  split; [reflexivity|]. split; [reflexivity|]. discriminate.
Qed.

(** No value of [concurrent] bounds the expansions in flight: on a root
    that lists [k] folders, [k] ticks in a row start [k] expansions. *)
Lemma ticks_start_expansions {callback} (E : Env) (k : nat) (st : State callback) :
  interval (sched st) = true ->
  k <= length (folders (sched st)) ->
  exists st',
    exec E (replicate k Tick) st = Some st'
    /\ in_flight (sched st') = in_flight (sched st) + k
    /\ interval (sched st') = true.
Proof.
  revert st. induction k as [|k IH]; intros st Hint Hk.
  - exists st. cbn. unfold in_flight. by rewrite Nat.add_0_r.
  - cbn [replicate exec step]. rewrite Hint.
    destruct (last (folders (sched st))) as [p|] eqn:Hlast.
    + destruct (IH (with_sched (handler_start E (sched st)) st)) as (st' & He & Hn & Hi).
      * cbn. unfold handler_start. by rewrite Hlast.
      * cbn. unfold handler_start. rewrite Hlast. cbn.
        rewrite length_removelast. lia.
      * exists st'. split; [done|]. split; [|done]. rewrite Hn.
        unfold in_flight. cbn. unfold handler_start. rewrite Hlast. cbn.
        rewrite length_app. cbn. lia.
    + apply last_None in Hlast. rewrite Hlast in Hk. cbn in Hk. lia.
Qed.

Lemma fetch_wide_env (n : nat) :
  fetch (wide_env n) (list_request (wide_env n) main_path)
  = Fulfilled {| ok := true; json := Fulfilled (wide_children n); text := Rejected |}.
Proof. reflexivity. Qed.

Lemma folder_entries_wide_children (n : nat) :
  length (folder_entries (wide_children n)) = n.
Proof.
  unfold folder_entries, wide_children. rewrite length_fmap.
  assert (H : forall l : list nat,
    length (filter (fun c => has_ext c = false)
      ((fun i => {| path := js "/audemars-piguet/fondationsaudemarspiguet/" ++ [N.of_nat (48 + i)];
                    ext := None |}) <$> l)) = length l).
  { induction l as [|i l IH]; [done|]. rewrite fmap_cons.
    rewrite filter_cons_True by done. cbn [length]. by rewrite IH. }
  by rewrite H, length_seq.
Qed.

Lemma listed_wide_env (n : nat) (callback : option AsyncFn) (concurrent : option nat) :
  exists st : State callback,
    exec (wide_env (S n)) [Tick; ExpansionSettles 0; ExpansionSettles 0]
      (crawl main_path callback concurrent) = Some st
    /\ in_flight (sched st) = 0
    /\ interval (sched st) = true
    /\ length (folders (sched st)) = S n.
Proof.
  pose (resp := {| ok := true; json := Fulfilled (wide_children (S n));
                   text := Rejected |}).
  pose (s2 := {| files := []; folders := []; inProgress := [true];
                 interval := true; results := Pending;
                 expansions := [AwaitJson main_path resp];
                 fetched := [list_request (wide_env (S n)) main_path] |}).
  pose (st2 := with_sched s2 (crawl main_path callback concurrent)).
  assert (H2 : exec (wide_env (S n)) [Tick; ExpansionSettles 0]
                 (crawl main_path callback concurrent) = Some st2) by reflexivity.
  pose (st' := forEach (wide_children (S n)) st2).
  exists (with_sched (finish 0 (sched st')) st').
  split; [reflexivity|].
  assert (Hs : sched st' = fold_left visit_sched (wide_children (S n)) s2).
  { unfold st'. by rewrite sched_forEach. }
  destruct (fold_visit_sched (wide_children (S n)) s2) as (H1 & H3 & H4 & H5 & H6 & H7 & H8).
  rewrite <- Hs in *. clearbody st'.
  pose proof (folder_entries_wide_children (S n)) as Hlen.
  cbn [with_sched sched]. unfold finish, check, in_flight.
  cbn [inProgress folders interval]. rewrite H3, H4, H5.
  cbn [s2 inProgress folders interval removelast app length Nat.eqb andb].
  rewrite Hlen. change (S n =? 0) with false. cbn [inProgress interval folders].
  by rewrite Hlen.
Qed.

(** C1, as the code has it: [concurrent] bounds nothing.  Whatever its
    value [n] (50 in the call [main] makes), on a root that lists [n + 1]
    folders whose list calls are slow, [n + 1] ticks in a row put [n + 1]
    expansions in flight. *)
Theorem in_flight_exceeds_concurrent (callback : option AsyncFn) (n : nat) :
  exists (st : State callback),
    exec (wide_env (S n)) (burst (S n)) (crawl main_path callback (Some n)) = Some st
    /\ in_flight (sched st) = S n
    /\ n < in_flight (sched st).
Proof.
  destruct (listed_wide_env n callback (Some n)) as (st0 & Hexec & Hfl & Hint & Hlen).
  destruct (ticks_start_expansions (wide_env (S n)) (S n) st0 Hint) as (st & Hticks & Hn & _);
    [lia|].
  exists st. split; [|lia].
  unfold burst.
  change ([Tick; ExpansionSettles 0; ExpansionSettles 0] ++ replicate (S n) Tick)
    with (Tick :: ExpansionSettles 0 :: ExpansionSettles 0 :: replicate (S n) Tick).
  revert Hexec. cbn [exec].
  destruct (step _ Tick _) as [s1|]; [|done].
  destruct (step _ (ExpansionSettles 0) s1) as [s2|]; [|done].
  destruct (step _ (ExpansionSettles 0) s2) as [s3|]; [|done].
  intros [= ->]. exact Hticks.
Qed.

(** ** Traversal of a finite tree *)

Section Tree.
Context (E : Env) (height : jsstring -> nat) (Htree : tree_like E height).

Lemma files_under_fuel (n m : nat) (p : jsstring) :
  height p < n -> height p < m -> files_under E n p = files_under E m p.
Proof using Htree.
  revert m p. induction n as [|n IH]; intros m p Hn Hm; [lia|].
  destruct m as [|m]; [lia|]. cbn [files_under]. f_equal.
  apply Forall_bind_ext, Forall_forall. intros q Hq.
  pose proof (Htree p q Hq). apply IH; lia.
Qed.

Lemma folders_under_fuel (n m : nat) (p : jsstring) :
  height p < n -> height p < m -> folders_under E n p = folders_under E m p.
Proof using Htree.
  revert m p. induction n as [|n IH]; intros m p Hn Hm; [lia|].
  destruct m as [|m]; [lia|]. cbn [folders_under]. f_equal.
  apply Forall_bind_ext, Forall_forall. intros q Hq.
  pose proof (Htree p q Hq). apply IH; lia.
Qed.

Lemma reachable_files_unfold (p : jsstring) :
  reachable_files E height p
  = file_entries (listing E p)
    ++ (folder_entries (listing E p) ≫= reachable_files E height).
Proof using Htree.
  unfold reachable_files at 1. cbn [files_under]. f_equal.
  apply Forall_bind_ext, Forall_forall. intros q Hq.
  pose proof (Htree p q Hq). unfold reachable_files.
  apply files_under_fuel; lia.
Qed.

Lemma reachable_folders_unfold (p : jsstring) :
  reachable_folders E height p = p :: below E height p.
Proof using Htree.
  unfold below, reachable_folders at 1. cbn [folders_under]. f_equal.
  apply Forall_bind_ext, Forall_forall. intros q Hq.
  pose proof (Htree p q Hq). unfold reachable_folders.
  apply folders_under_fuel; lia.
Qed.

Lemma listing_fails (p : jsstring) : list_fails E p = true -> listing E p = [].
Proof.
  unfold list_fails, listing.
  destruct (fetch E (list_request E p)) as [resp|]; [|done].
  destruct (ok resp); [|done]. by destruct (json resp).
Qed.

Lemma removelast_last_Some {A} (l : list A) (x : A) :
  last l = Some x -> l = removelast l ++ [x].
Proof. intros [l' ->]%last_Some. by rewrite removelast_last. Qed.

Lemma tree_inv_crawl (root : jsstring) (callback : option AsyncFn)
    (concurrent : option nat) :
  tree_inv E height root (sched (crawl root callback concurrent)).
Proof.
  unfold tree_inv, pending_paths. cbn. rewrite !app_nil_r. done.
Qed.

Lemma tree_inv_check (root : jsstring) (s : Sched) :
  tree_inv E height root s -> tree_inv E height root (check s).
Proof. unfold check. by destruct (_ && _). Qed.

Lemma tree_inv_handler_start (root : jsstring) (s : Sched) :
  tree_inv E height root s -> tree_inv E height root (handler_start E s).
Proof using Htree.
  intros (Hok & Hfiles & Hfetched). unfold handler_start.
  destruct (last (folders s)) as [p|] eqn:Hlast; [|by apply tree_inv_check].
  apply removelast_last_Some in Hlast.
  unfold tree_inv, pending_paths in *.
  cbn [files folders expansions fetched].
  rewrite Hlast in Hfiles, Hfetched. split; [|split].
  - apply Forall_app. split; [done|]. by repeat constructor.
  - rewrite <- Hfiles. rewrite !fmap_app, !bind_app.
    change (expansion_path <$> [AwaitList p]) with [p].
    solve_Permutation.
  - rewrite <- Hfetched. rewrite !fmap_app, !bind_app, !fmap_app.
    change (expansion_path <$> [AwaitList p]) with [p].
    rewrite !bind_singleton, (reachable_folders_unfold p), fmap_cons.
    solve_Permutation.
Qed.

Lemma tree_inv_set_expansion (root : jsstring) (s : Sched) (i : nat)
    (p : jsstring) (resp : Response) :
  expansions s !! i = Some (AwaitList p) ->
  fetch E (list_request E p) = Fulfilled resp -> ok resp = true ->
  tree_inv E height root s ->
  tree_inv E height root (set_expansion i (AwaitJson p resp) s).
Proof.
  intros Hi Hfetch Hok (Hall & Hfiles & Hfetched).
  assert (Hpaths : expansion_path <$> <[i:=AwaitJson p resp]> (expansions s)
                   = expansion_path <$> expansions s).
  { rewrite list_fmap_insert. apply list_insert_id.
    by rewrite list_lookup_fmap, Hi. }
  unfold tree_inv, pending_paths, set_expansion. cbn. rewrite Hpaths.
  split; [|done]. by apply Forall_insert.
Qed.

Lemma tree_inv_finish_empty (root : jsstring) (s : Sched) (i : nat) (x : Expansion) :
  expansions s !! i = Some x ->
  listing E (expansion_path x) = [] ->
  tree_inv E height root s -> tree_inv E height root (finish i s).
Proof using Htree.
  intros Hi Hempty (Hall & Hfiles & Hfetched).
  unfold finish. apply tree_inv_check.
  pose proof (delete_Permutation _ _ _ Hi) as Hperm.
  assert (Hf : reachable_files E height (expansion_path x) = []).
  { rewrite reachable_files_unfold, Hempty. done. }
  assert (Hb : below E height (expansion_path x) = []).
  { unfold below. rewrite Hempty. done. }
  unfold tree_inv, pending_paths in *.
  cbn [files folders expansions fetched]. split; [|split].
  - by apply Forall_delete.
  - rewrite <- Hfiles. rewrite Hperm at 2. rewrite fmap_cons, !bind_app, bind_cons, Hf.
    done.
  - rewrite <- Hfetched. rewrite Hperm at 2. rewrite fmap_cons, bind_cons, Hb.
    done.
Qed.

Lemma tree_inv_finish_listed (root : jsstring) (s : Sched) (i : nat)
    (p : jsstring) (resp : Response) (children : list Child) :
  expansions s !! i = Some (AwaitJson p resp) ->
  json resp = Fulfilled children ->
  tree_inv E height root s ->
  tree_inv E height root (finish i (fold_left visit_sched children s)).
Proof using Htree.
  intros Hi Hjson (Hall & Hfiles & Hfetched).
  unfold finish. apply tree_inv_check.
  pose proof (delete_Permutation _ _ _ Hi) as Hperm.
  destruct (fold_visit_sched children s) as (H1 & H2 & _ & _ & _ & H6 & H7).
  assert (Hlisting : listing E p = children).
  { pose proof (proj1 (Forall_lookup _ _) Hall i _ Hi) as [Hfetch Hok].
    unfold listing. by rewrite Hfetch, Hok, Hjson. }
  subst children.
  unfold tree_inv, pending_paths in *.
  cbn [files folders expansions fetched]. rewrite H1, H2, H6, H7.
  split; [|split].
  - by apply Forall_delete.
  - rewrite <- Hfiles. rewrite Hperm at 2. rewrite fmap_cons, !bind_app, bind_cons.
    change (expansion_path (AwaitJson p resp)) with p.
    rewrite (reachable_files_unfold p). solve_Permutation.
  - rewrite <- Hfetched. rewrite Hperm at 2. rewrite fmap_cons, !bind_app, bind_cons.
    change (expansion_path (AwaitJson p resp)) with p.
    unfold below at 3. rewrite !fmap_app. solve_Permutation.
Qed.

Lemma tree_inv_step (root : jsstring) (e : Event) (s s' : Sched) :
  sched_step E e s = Some s' ->
  tree_inv E height root s -> tree_inv E height root s'.
Proof using Htree.
  intros Hstep Hinv. destruct e as [|i|j]; cbn [sched_step] in Hstep.
  - destruct (interval s); [|done]. injection Hstep as <-.
    by apply tree_inv_handler_start.
  - destruct (expansions s !! i) as [[p|p resp]|] eqn:Hi; [| |done].
    + destruct (fetch E (list_request E p)) as [resp|] eqn:Hfetch.
      * destruct (ok resp) eqn:Hok; injection Hstep as <-.
        -- by apply (tree_inv_set_expansion root s i p resp).
        -- apply (tree_inv_finish_empty root s i _ Hi); [|done].
           cbn. unfold listing. by rewrite Hfetch, Hok.
      * injection Hstep as <-.
        apply (tree_inv_finish_empty root s i _ Hi); [|done].
        cbn. unfold listing. by rewrite Hfetch.
    + destruct (json resp) as [children|] eqn:Hjson; injection Hstep as <-.
      * by apply (tree_inv_finish_listed root s i p resp).
      * apply (tree_inv_finish_empty root s i _ Hi); [|done].
        destruct Hinv as (Hall & _).
        pose proof (proj1 (Forall_lookup _ _) Hall i _ Hi) as [Hfetch Hok].
        cbn. unfold listing. by rewrite Hfetch, Hok, Hjson.
  - by injection Hstep as <-.
Qed.

Lemma tree_inv_exec (root : jsstring) (events : list Event) (s s' : Sched) :
  sched_exec E events s = Some s' ->
  tree_inv E height root s -> tree_inv E height root s'.
Proof using Htree.
  revert s. induction events as [|e events IH]; intros s; cbn [sched_exec].
  - by intros [= <-].
  - destruct (sched_step E e s) as [s1|] eqn:Hstep; [|done].
    intros Hexec Hinv. eapply IH; [done|]. by eapply tree_inv_step.
Qed.

(** At the resolution the recorded files are the files of the tree and
    the list requests made are those of its folders. *)
Lemma resolved_tree (root : jsstring) (callback : option AsyncFn)
    (concurrent : option nat) (events : list Event) (st : State callback)
    (fs : list Child) :
  exec E events (crawl root callback concurrent) = Some st ->
  result_value (sched st) = Some fs ->
  fs = files (sched st)
  /\ fs ≡ₚ reachable_files E height root
  /\ fetched (sched st) ≡ₚ list_request E <$> reachable_folders E height root.
Proof using Htree.
  intros Hexec Hres.
  pose proof (reachable_inv _ _ _ _ _ _ Hexec) as [Hlen Hinv].
  apply sched_of_exec in Hexec.
  pose proof (tree_inv_exec root _ _ _ Hexec
                (tree_inv_crawl root callback concurrent)) as (_ & Hfiles & Hfetched).
  unfold result_value in Hres.
  destruct (results (sched st)) as [|[]|]; [done| |done].
  injection Hres as <-. destruct Hinv as (_ & Hfo & Hin).
  rewrite Hin in Hlen. symmetry in Hlen. apply length_zero_iff_nil in Hlen.
  unfold pending_paths in *. rewrite Hfo, Hlen in *. cbn in *.
  rewrite app_nil_r in *. done.
Qed.

Lemma elem_of_reachable_folders (p q : jsstring) :
  q ∈ reachable_folders E height p <-> reaches E p q.
Proof using Htree.
  split.
  - remember (height p) as n eqn:Hn. revert p q Hn.
    induction n as [n IH] using lt_wf_ind. intros p q -> Hq.
    rewrite reachable_folders_unfold in Hq.
    apply elem_of_cons in Hq as [->|Hq]; [constructor|].
    unfold below in Hq. apply list_elem_of_bind in Hq as (r & Hq & Hr).
    apply (reaches_below E p r q Hr).
    by apply (IH (height r) (Htree p r Hr) r q).
  - induction 1 as [p|p q r Hq _ IH]; rewrite reachable_folders_unfold.
    + by left.
    + right. unfold below. apply list_elem_of_bind. by exists q.
Qed.

Lemma elem_of_reachable_files (p : jsstring) (c : Child) :
  c ∈ reachable_files E height p
  <-> exists q, reaches E p q /\ c ∈ file_entries (listing E q).
Proof using Htree.
  split.
  - remember (height p) as n eqn:Hn. revert p Hn.
    induction n as [n IH] using lt_wf_ind. intros p -> Hc.
    rewrite reachable_files_unfold in Hc.
    apply elem_of_app in Hc as [Hc|Hc].
    + exists p. split; [constructor | done].
    + apply list_elem_of_bind in Hc as (r & Hc & Hr).
      destruct (IH (height r) (Htree p r Hr) r eq_refl Hc) as (q & Hq & Hcq).
      exists q. split; [|done]. by apply (reaches_below E p r q).
  - intros (q & Hq & Hc). induction Hq as [p|p q r Hq _ IH];
      rewrite reachable_files_unfold; apply elem_of_app.
    + by left.
    + right. apply list_elem_of_bind. exists q. split; [by apply IH | done].
Qed.

End Tree.

Lemma files_check (s : Sched) : files (check s) = files s.
Proof. unfold check. by destruct (_ && _). Qed.

Lemma files_finish (i : nat) (s : Sched) : files (finish i s) = files s.
Proof. unfold finish. by rewrite files_check. Qed.

Lemma files_handler_start (E : Env) (s : Sched) :
  files (handler_start E s) = files s.
Proof.
  unfold handler_start. destruct (last (folders s)); [done|]. apply files_check.
Qed.

(** The callback is called on each file that is recorded, in the order of
    recording, and on nothing else. *)
Lemma reported_step {callback} (E : Env) (e : Event) (st st' : State callback) :
  step E e st = Some st' ->
  reported st = match callback with Some _ => files (sched st) | None => [] end ->
  reported st' = match callback with Some _ => files (sched st') | None => [] end.
Proof.
  destruct e as [|i|j]; cbn [step].
  - destruct (interval (sched st)); [|done]. intros [= <-]. cbn.
    by rewrite files_handler_start.
  - destruct (expansions (sched st) !! i) as [[p|p resp]|]; [| |done];
      intros [= <-]; cbn [handler_resume].
    + destruct (fetch E (list_request E p)) as [resp|]; [destruct (ok resp)|];
        cbn; by rewrite ?files_finish.
    + destruct (json resp) as [json|]; [|cbn; by rewrite files_finish].
      cbn [with_sched sched reported]. rewrite files_finish, sched_forEach.
      destruct (fold_visit_sched json (sched st)) as (-> & _).
      destruct callback as [f|].
      * rewrite reported_forEach. by intros ->.
      * intros Hr. clear -Hr. unfold forEach. revert st Hr.
        induction json as [|c json IH]; intros st Hr; [done|].
        cbn [fold_left]. apply IH. unfold visit.
        by destruct (has_ext c).
  - intros Hs Hr. rewrite (sched_callback_settles _ _ _ Hs), <- Hr. clear Hr.
    destruct callback as [f|]; [|done]. cbn [callback_settles] in Hs.
    destruct (callbacks st !! j) as [k|]; [|done].
    destruct (cb_resume f k) as [a eff]. injection Hs as <-.
    by rewrite reported_settle.
Qed.

Lemma reported_exec {callback} (E : Env) (events : list Event)
    (st st' : State callback) :
  exec E events st = Some st' ->
  reported st = match callback with Some _ => files (sched st) | None => [] end ->
  reported st' = match callback with Some _ => files (sched st') | None => [] end.
Proof.
  revert st. induction events as [|e events IH]; intros st; cbn [exec].
  - by intros [= <-].
  - destruct (step E e st) as [st1|] eqn:Hstep; [|done].
    intros Hexec Hr. eapply IH; [done|]. by eapply reported_step.
Qed.

Global Instance list_request_inj (E : Env) : Inj (=) (=) (list_request E).
Proof.
  intros p q H. apply (f_equal req_url) in H.
  change (list_url p = list_url q) in H.
  unfold list_url, concat_js in H. by apply app_inv_head in H.
Qed.

(** C3: on a remote tree (finite, and no path met twice when listing
    recursively from the root), the files [results] is resolved with are
    the file entries met when listing recursively from the root, each
    once; the list requests made are those of the folders met, each
    once; and the callback was called on the recorded files, each once. *)
Theorem crawl_result_is_the_reachable_files (E : Env) (height : jsstring -> nat)
    (root : jsstring) (f : AsyncFn) (concurrent : option nat)
    (events : list Event) (st : State (Some f)) (fs : list Child) :
  tree_like E height ->
  NoDup (path <$> reachable_files E height root) ->
  NoDup (reachable_folders E height root) ->
  exec E events (crawl root (Some f) concurrent) = Some st ->
  result_value (sched st) = Some fs ->
  (forall c, c ∈ fs
     <-> exists q, reaches E root q /\ c ∈ file_entries (listing E q))
  /\ fs ≡ₚ reachable_files E height root
  /\ NoDup (path <$> fs)
  /\ (forall q, list_request E q ∈ fetched (sched st) <-> reaches E root q)
  /\ fetched (sched st) ≡ₚ list_request E <$> reachable_folders E height root
  /\ NoDup (fetched (sched st))
  /\ reported st = fs.
Proof.
  intros Htree Hfiles Hfolders Hexec Hres.
  destruct (resolved_tree E height Htree root _ _ _ _ _ Hexec Hres)
    as (-> & Hperm & Hfetched).
  pose proof (reported_exec E _ _ _ Hexec eq_refl) as Hrep.
  split; [|split; [|split; [|split; [|split; [|split]]]]]; try done.
  - intros c. rewrite Hperm. by apply elem_of_reachable_files.
  - by rewrite Hperm.
  - intros q. rewrite Hfetched, <- (elem_of_reachable_folders E height Htree).
    apply list_elem_of_fmap_inj, _.
  - rewrite Hfetched. by apply (NoDup_fmap_2 _).
Qed.

(** ** Failed list calls *)

Lemma exec_app {callback} (E : Env) (ev1 ev2 : list Event) (st : State callback) :
  exec E (ev1 ++ ev2) st = exec E ev1 st ≫= exec E ev2.
Proof.
  revert st. induction ev1 as [|e ev1 IH]; intros st; [done|].
  cbn [app exec]. destruct (step E e st); [apply IH | done].
Qed.

Lemma expansions_ok_step (E : Env) (e : Event) (s s' : Sched) :
  sched_step E e s = Some s' ->
  Forall (expansion_ok E) (expansions s) -> Forall (expansion_ok E) (expansions s').
Proof.
  assert (Hcheck : forall s, expansions (check s) = expansions s).
  { intros s0. unfold check. by destruct (_ && _). }
  intros Hstep Hall. destruct e as [|i|j]; cbn [sched_step] in Hstep.
  - destruct (interval s); [|done]. injection Hstep as <-. unfold handler_start.
    destruct (last (folders s)); [|by rewrite Hcheck].
    cbn. apply Forall_app. split; [done|]. by repeat constructor.
  - destruct (expansions s !! i) as [[p|p resp]|] eqn:Hi; [| |done].
    + destruct (fetch E (list_request E p)) as [resp|] eqn:Hfetch.
      * destruct (ok resp) eqn:Hok; injection Hstep as <-.
        -- cbn. by apply Forall_insert.
        -- unfold finish. rewrite Hcheck. cbn. by apply Forall_delete.
      * injection Hstep as <-. unfold finish. rewrite Hcheck. cbn.
        by apply Forall_delete.
    + destruct (json resp) as [children|]; injection Hstep as <-;
        unfold finish; rewrite Hcheck; cbn; [|by apply Forall_delete].
      destruct (fold_visit_sched children s) as (_ & _ & _ & _ & _ & -> & _).
      by apply Forall_delete.
  - by injection Hstep as <-.
Qed.

Lemma reachable_expansions_ok (E : Env) (path : jsstring)
    (callback : option AsyncFn) (concurrent : option nat)
    (events : list Event) (st : State callback) :
  exec E events (crawl path callback concurrent) = Some st ->
  Forall (expansion_ok E) (expansions (sched st)).
Proof.
  intros Hexec. apply sched_of_exec in Hexec.
  assert (H0 : Forall (expansion_ok E)
                 (expansions (sched (crawl path callback concurrent))))
    by constructor.
  revert Hexec H0. generalize (sched (crawl path callback concurrent)).
  induction events as [|e events IH]; intros s; cbn [sched_exec].
  - by intros [= <-].
  - destruct (sched_step E e s) as [s1|] eqn:Hstep; [|done].
    intros Hexec Hall. eapply IH; [done|]. by eapply expansions_ok_step.
Qed.

Lemma files_under_failed (E : Env) (fuel : nat) (p : jsstring) :
  list_fails E p = true -> files_under E fuel p = [].
Proof.
  intros Hfail. destruct fuel as [|n]; [done|]. cbn [files_under].
  by rewrite (listing_fails E p Hfail).
Qed.

Lemma finish_fields (i : nat) (s : Sched) :
  files (finish i s) = files s /\ folders (finish i s) = folders s
  /\ expansions (finish i s) = delete i (expansions s)
  /\ inProgress (finish i s) = removelast (inProgress s).
Proof. unfold finish, check. by destruct (_ && _). Qed.

Lemma delete_insert_same {A} (l : list A) (i : nat) (y : A) :
  delete i (<[i:=y]> l) = delete i l.
Proof.
  rewrite !delete_take_drop, take_insert_ge, drop_insert_lt by lia. done.
Qed.

Lemma in_flight_removelast (l : list bool) :
  l <> [] -> S (length (removelast l)) = length l.
Proof. intros H. rewrite length_removelast. destruct l; [done | cbn; lia]. Qed.

(** C8: a folder whose list call fails - rejected request, response that
    is not a success, body that is not JSON - is done after one or two
    settlements of its handler, which record no file, push no folder,
    leave every other handler, the callbacks and the frontier as they
    were, take the folder out of the in-flight count and do not reject
    [results].  Nothing is found below it. *)
Theorem failed_listing_is_an_empty_expansion (E : Env) (root : jsstring)
    (callback : option AsyncFn) (concurrent : option nat)
    (events : list Event) (st : State callback) (i : nat) (x : Expansion) :
  exec E events (crawl root callback concurrent) = Some st ->
  expansions (sched st) !! i = Some x ->
  list_fails E (expansion_path x) = true ->
  (exists (settlements : list Event) (st' : State callback),
     (settlements = [ExpansionSettles i]
      \/ settlements = [ExpansionSettles i; ExpansionSettles i])
     /\ exec E settlements st = Some st'
     /\ files (sched st') = files (sched st)
     /\ folders (sched st') = folders (sched st)
     /\ expansions (sched st') = delete i (expansions (sched st))
     /\ S (in_flight (sched st')) = in_flight (sched st)
     /\ callbacks st' = callbacks st
     /\ reported st' = reported st
     /\ results (sched st') <> Failed)
  /\ listing E (expansion_path x) = []
  /\ forall fuel, files_under E fuel (expansion_path x) = [].
Proof.
  intros Hexec Hi Hfail.
  split; [|split; [by apply listing_fails | intros; by apply files_under_failed]].
  pose proof (reachable_expansions_ok _ _ _ _ _ _ Hexec) as Hall.
  pose proof (proj1 (Forall_lookup _ _) Hall i _ Hi) as Hx.
  destruct (reachable_inv _ _ _ _ _ _ Hexec) as [Hlen _].
  assert (Hne : inProgress (sched st) <> []).
  { intros H. rewrite H in Hlen. apply lookup_lt_Some in Hi. cbn in Hlen. lia. }
  assert (Hnf : forall ev st', exec E ev st = Some st' -> results (sched st') <> Failed).
  { intros ev st' Hev.
    assert (Hrun : exec E (events ++ ev) (crawl root callback concurrent) = Some st')
      by (by rewrite exec_app, Hexec).
    destruct (reachable_inv _ _ _ _ _ _ Hrun) as [_ Hres].
    intros Hf. by rewrite Hf in Hres. }
  assert (Hdone : forall (st0 st1 : State callback),
            sched st1 = finish i (sched st0) ->
            files (sched st0) = files (sched st) ->
            folders (sched st0) = folders (sched st) ->
            delete i (expansions (sched st0)) = delete i (expansions (sched st)) ->
            inProgress (sched st0) = inProgress (sched st) ->
            files (sched st1) = files (sched st)
            /\ folders (sched st1) = folders (sched st)
            /\ expansions (sched st1) = delete i (expansions (sched st))
            /\ S (in_flight (sched st1)) = in_flight (sched st)).
  { intros st0 st1 -> H1 H2 H3 H4.
    destruct (finish_fields i (sched st0)) as (-> & -> & -> & Hp).
    unfold in_flight. rewrite Hp, H4. repeat split; try done.
    by apply in_flight_removelast. }
  unfold list_fails in Hfail. destruct x as [p|p resp]; cbn [expansion_path] in *.
  - destruct (fetch E (list_request E p)) as [resp|] eqn:Hfetch.
    + destruct (ok resp) eqn:Hok.
      * destruct (json resp) as [children|] eqn:Hjson; [done|].
        eexists [ExpansionSettles i; ExpansionSettles i], _.
        split; [by right|]. cbn [exec step]. rewrite Hi. cbn [handler_resume].
        rewrite Hfetch, Hok. cbn [with_sched sched set_expansion expansions].
        rewrite list_lookup_insert_eq by (by eapply lookup_lt_Some).
        cbn [handler_resume]. rewrite Hjson. split; [reflexivity|].
        match goal with |- context [files (sched ?t)] =>
          destruct (Hdone (with_sched (set_expansion i (AwaitJson p resp) (sched st)) st) t)
            as (H1 & H2 & H3 & H4); try done end.
        { cbn. apply delete_insert_same. }
        repeat split; try done. eapply (Hnf [ExpansionSettles i; ExpansionSettles i]).
        cbn [exec step]. rewrite Hi. cbn [handler_resume].
        rewrite Hfetch, Hok. cbn [with_sched sched set_expansion expansions].
        rewrite list_lookup_insert_eq by (by eapply lookup_lt_Some).
        cbn [handler_resume]. by rewrite Hjson.
      * eexists [ExpansionSettles i], _. split; [by left|].
        cbn [exec step]. rewrite Hi. cbn [handler_resume]. rewrite Hfetch, Hok.
        split; [reflexivity|].
        match goal with |- context [files (sched ?t)] =>
          destruct (Hdone st t) as (H1 & H2 & H3 & H4); try done end.
        repeat split; try done. eapply (Hnf [ExpansionSettles i]).
        cbn [exec step]. rewrite Hi. cbn [handler_resume]. by rewrite Hfetch, Hok.
    + eexists [ExpansionSettles i], _. split; [by left|].
      cbn [exec step]. rewrite Hi. cbn [handler_resume]. rewrite Hfetch.
      split; [reflexivity|].
      match goal with |- context [files (sched ?t)] =>
        destruct (Hdone st t) as (H1 & H2 & H3 & H4); try done end.
      repeat split; try done. eapply (Hnf [ExpansionSettles i]).
      cbn [exec step]. rewrite Hi. cbn [handler_resume]. by rewrite Hfetch.
  - destruct Hx as [Hfetch Hok]. rewrite Hfetch, Hok in Hfail.
    destruct (json resp) as [children|] eqn:Hjson; [done|].
    eexists [ExpansionSettles i], _. split; [by left|].
    cbn [exec step]. rewrite Hi. cbn [handler_resume]. rewrite Hjson.
    split; [reflexivity|].
    match goal with |- context [files (sched ?t)] =>
      destruct (Hdone st t) as (H1 & H2 & H3 & H4); try done end.
    repeat split; try done. eapply (Hnf [ExpansionSettles i]).
    cbn [exec step]. rewrite Hi. cbn [handler_resume]. by rewrite Hjson.
Qed.

(** ** Termination *)

Section Termination.
Context (E : Env) (height : jsstring -> nat) (Htree : tree_like E height).

Lemma folder_cost_ge (p : jsstring) : 3 <= folder_cost E height p.
Proof using Htree.
  unfold folder_cost. rewrite (reachable_folders_unfold E height Htree).
  cbn [length]. lia.
Qed.

Lemma folder_cost_below (p : jsstring) :
  sum_list_with (folder_cost E height) (folder_entries (listing E p)) + 3
  = folder_cost E height p.
Proof using Htree.
  unfold folder_cost at 2. rewrite (reachable_folders_unfold E height Htree).
  unfold below. cbn [length].
  induction (folder_entries (listing E p)) as [|q l IH]; [done|].
  rewrite bind_cons, length_app. cbn [sum_list_with]. unfold folder_cost at 1. lia.
Qed.

Lemma turns_left_check (s : Sched) : turns_left E height (check s) <= turns_left E height s.
Proof.
  unfold check. destruct (_ && _); [|done]. unfold turns_left. cbn.
  destruct (results s); cbn; lia.
Qed.

Lemma turns_left_finish (i : nat) (x : Expansion) (s : Sched) :
  expansions s !! i = Some x ->
  turns_left E height (finish i s) + expansion_cost E height x <= turns_left E height s.
Proof.
  intros Hi. unfold finish.
  etransitivity; [apply Nat.add_le_mono_r, turns_left_check|].
  unfold turns_left. cbn [results folders expansions].
  rewrite (delete_Permutation _ _ _ Hi) at 2. cbn [sum_list_with]. lia.
Qed.

Lemma expansion_cost_pos (x : Expansion) : 1 <= expansion_cost E height x.
Proof using Htree.
  destruct x as [p|p resp]; cbn; pose proof (folder_cost_ge p); lia.
Qed.

(** Every turn but a callback's and an idle tick brings the end nearer. *)
Lemma turns_left_step (e : Event) (s s' : Sched) :
  sched_inv s -> Forall (expansion_ok E) (expansions s) ->
  sched_step E e s = Some s' ->
  if is_scheduler_event e && negb (idle_tick e s)
  then turns_left E height s' < turns_left E height s
  else s' = s.
Proof using Htree.
  intros Hinv Hall Hstep. destruct e as [|i|j]; cbn [sched_step] in Hstep.
  - destruct (interval s) eqn:Hint; [|done]. injection Hstep as <-.
    destruct (sched_inv_pending s Hinv (or_introl Hint)) as [Hres _].
    unfold handler_start, idle_tick. cbn [is_scheduler_event andb].
    destruct (last (folders s)) as [p|] eqn:Hlast.
    + pose proof (removelast_last_Some _ _ Hlast) as Hf.
      assert (Hlen : (length (folders s) =? 0) = false).
      { rewrite Hf, length_app. cbn. apply Nat.eqb_neq. lia. }
      rewrite Hlen. cbn [andb negb]. unfold turns_left. cbn [results folders expansions].
      rewrite Hf at 2. rewrite !sum_list_with_app. cbn [sum_list_with expansion_cost].
      pose proof (folder_cost_ge p). lia.
    + apply last_None in Hlast. rewrite Hlast. cbn [length Nat.eqb andb].
      unfold check. rewrite Hlast.
      destruct (length (inProgress s) =? 0) eqn:Hp; cbn [negb andb length Nat.eqb]; [|done].
      unfold turns_left. cbn. rewrite Hres, Hlast. cbn. lia.
  - cbn [is_scheduler_event idle_tick negb andb].
    destruct (expansions s !! i) as [x|] eqn:Hi; [|done].
    pose proof (turns_left_finish i x s Hi) as Hfin.
    pose proof (expansion_cost_pos x) as Hpos.
    destruct x as [p|p resp].
    + destruct (fetch E (list_request E p)) as [resp|].
      * destruct (ok resp); injection Hstep as <-; [|lia].
        unfold turns_left, set_expansion. cbn [results folders expansions].
        assert (Hi' : <[i:=AwaitJson p resp]> (expansions s) !! i
                      = Some (AwaitJson p resp)).
        { apply list_lookup_insert_eq. by eapply lookup_lt_Some. }
        rewrite (delete_Permutation _ _ _ Hi'), delete_insert_same.
        rewrite (delete_Permutation _ _ _ Hi) at 2.
        cbn [sum_list_with expansion_cost]. pose proof (folder_cost_ge p). lia.
      * injection Hstep as <-. lia.
    + destruct (json resp) as [children|] eqn:Hjson; injection Hstep as <-; [|lia].
      pose proof (proj1 (Forall_lookup _ _) Hall i _ Hi) as [Hfetch Hok].
      assert (Hlisting : listing E p = children).
      { unfold listing. by rewrite Hfetch, Hok, Hjson. }
      subst children.
      destruct (fold_visit_sched (listing E p) s) as (_ & H2 & _ & _ & H5 & H6 & _).
      assert (Hi2 : expansions (fold_left visit_sched (listing E p) s) !! i
                    = Some (AwaitJson p resp)) by (by rewrite H6).
      pose proof (turns_left_finish i _ _ Hi2) as Hfin2.
      cbn [expansion_cost] in Hfin2.
      assert (Hgrow : turns_left E height (fold_left visit_sched (listing E p) s) + 3
                      = turns_left E height s + folder_cost E height p).
      { unfold turns_left. rewrite H2, H5, H6, sum_list_with_app.
        pose proof (folder_cost_below p). lia. }
      pose proof (folder_cost_ge p). lia.
  - by injection Hstep as <-.
Qed.

Lemma progress_bound (events : list Event) (s s' : Sched) :
  sched_inv s -> Forall (expansion_ok E) (expansions s) ->
  sched_exec E events s = Some s' ->
  progress_steps E events s + turns_left E height s' <= turns_left E height s.
Proof using Htree.
  revert s. induction events as [|e events IH]; intros s Hinv Hall;
    cbn [sched_exec progress_steps].
  - intros [= <-]. lia.
  - destruct (sched_step E e s) as [s1|] eqn:Hstep; [|done]. intros Hexec.
    pose proof (turns_left_step e s s1 Hinv Hall Hstep) as Hdec.
    pose proof (IH s1 (sched_step_inv _ _ _ _ Hstep Hinv)
                  (expansions_ok_step _ _ _ _ Hstep Hall) Hexec) as Hrest.
    destruct (is_scheduler_event e && negb (idle_tick e s)); [lia|].
    subst s1. lia.
Qed.

Lemma next_event_enabled {callback} (st : State callback) :
  sched_inv (sched st) -> results (sched st) = Pending ->
  exists st', step E (next_event (sched st)) st = Some st'
    /\ is_scheduler_event (next_event (sched st)) = true
    /\ idle_tick (next_event (sched st)) (sched st) = false.
Proof.
  intros [Hlen Hres] Hpending. rewrite Hpending in Hres. destruct Hres as [Hint _].
  unfold next_event. destruct (expansions (sched st)) as [|x l] eqn:Hx.
  - eexists. cbn [step]. rewrite Hint. split; [done|]. split; [done|].
    cbn. rewrite Hlen. cbn. apply andb_false_r.
  - eexists. cbn [step]. rewrite Hx. cbn. done.
Qed.

Lemma run_resolves {callback} (fuel : nat) (st : State callback) :
  sched_inv (sched st) -> Forall (expansion_ok E) (expansions (sched st)) ->
  turns_left E height (sched st) <= fuel ->
  results (sched (run E fuel st)) <> Pending
  /\ exists events, exec E events st = Some (run E fuel st).
Proof using Htree.
  revert st. induction fuel as [|n IH]; intros st Hinv Hall Hfuel; cbn [run].
  - split; [|by exists []]. intros Hp. unfold turns_left in Hfuel.
    rewrite Hp in Hfuel. lia.
  - destruct (results (sched st)) eqn:Hres; [| split; [congruence | by exists []]..].
    destruct (next_event_enabled st Hinv Hres) as (st' & Hstep & Hsch & Hidle).
    rewrite Hstep. pose proof (sched_of_step _ _ _ _ Hstep) as Hs.
    pose proof (turns_left_step _ _ _ Hinv Hall Hs) as Hdec.
    rewrite Hsch, Hidle in Hdec. cbn in Hdec.
    destruct (IH st' (sched_step_inv _ _ _ _ Hs Hinv)
                (expansions_ok_step _ _ _ _ Hs Hall)) as (Hdone & evs & Hevs); [lia|].
    split; [done|]. exists (next_event (sched st) :: evs). cbn [exec].
    by rewrite Hstep.
Qed.

End Termination.

(** C9: on a finite remote tree, whatever succeeds or fails, [results] is
    never rejected; at most three turns per folder of the tree and one
    more change the variables of [crawl]; as long as [results] is pending
    such a turn can happen; and from every state the call can reach, the
    event loop resolves [results], with the files met when listing
    recursively from the root.  (A remote call settles, with success or
    failure; a call that never answers is not an outcome.) *)
Theorem crawl_always_resolves (E : Env) (height : jsstring -> nat)
    (root : jsstring) (callback : option AsyncFn) (concurrent : option nat)
    (events : list Event) (st : State callback) :
  tree_like E height ->
  exec E events (crawl root callback concurrent) = Some st ->
  let bound := 3 * length (reachable_folders E height root) + 1 in
  results (sched st) <> Failed
  /\ progress_steps E events (sched (crawl root callback concurrent)) <= bound
  /\ (results (sched st) = Pending ->
      exists st', step E (next_event (sched st)) st = Some st'
        /\ is_scheduler_event (next_event (sched st)) = true
        /\ idle_tick (next_event (sched st)) (sched st) = false)
  /\ exists fs,
       result_value (sched (run E bound st)) = Some fs
       /\ fs = files (sched (run E bound st))
       /\ fs ≡ₚ reachable_files E height root.
Proof.
  intros Htree Hexec bound.
  pose proof (reachable_inv _ _ _ _ _ _ Hexec) as Hinv.
  pose proof (reachable_expansions_ok _ _ _ _ _ _ Hexec) as Hall.
  pose proof (progress_bound E height Htree events _ _
                (crawl_inv root callback concurrent) (Forall_nil_2 _)
                (sched_of_exec _ _ _ _ Hexec)) as Hbound.
  assert (Hinit : turns_left E height (sched (crawl root callback concurrent)) = bound).
  { unfold turns_left, bound, folder_cost. cbn. lia. }
  rewrite Hinit in Hbound.
  split; [|split; [lia|split; [by apply next_event_enabled|]]].
  { destruct Hinv as [_ Hres]. intros Hf. by rewrite Hf in Hres. }
  destruct (run_resolves E height Htree bound st Hinv Hall) as (Hdone & evs & Hevs);
    [lia|].
  assert (Hrun : exec E (events ++ evs) (crawl root callback concurrent)
                 = Some (run E bound st)) by (by rewrite exec_app, Hexec).
  destruct (reachable_inv _ _ _ _ _ _ Hrun) as [_ Hres].
  exists (files (sched (run E bound st))).
  assert (Hval : result_value (sched (run E bound st))
                 = Some (files (sched (run E bound st)))).
  { unfold result_value. destruct (results (sched (run E bound st))) as [|[]|]; done. }
  split; [done|]. split; [done|].
  by destruct (resolved_tree E height Htree root _ _ _ _ _ Hrun Hval) as (_ & Hperm & _).
Qed.

(** ** The properties at sample stores *)

Lemma listing_table (token : jsstring) (lists : list (jsstring * list Child))
    (sources : list (jsstring * jsstring)) (parse : jsstring -> Document)
    (p : jsstring) :
  listing {| bearerToken := token; fetch := table_fetch lists sources;
             parseFromString := parse |} p
  = default [] (snd <$> find (fun e => str_eqb (list_url (fst e)) (list_url p)) lists).
Proof.
  unfold listing. cbn [fetch]. unfold table_fetch, find_url.
  change (req_method (list_request _ p)) with GET.
  change (req_url (list_request _ p)) with (list_url p). cbn beta iota.
  destruct (find _ lists) as [[a children]|]; [done|]. cbn [fmap option_fmap option_map].
  by destruct (snd <$> find _ sources).
Qed.

Lemma str_eqb_list_url (a p : jsstring) :
  str_eqb (list_url a) (list_url p) = true -> p = a.
Proof.
  intros H%str_eqb_eq. unfold list_url, concat_js in H.
  by apply app_inv_head in H.
Qed.

Lemma small_tree_like : tree_like small_tree_env small_tree_height.
Proof.
  intros p q. unfold small_tree_env. rewrite listing_table. cbn [find fst].
  destruct (str_eqb (list_url (js "/r")) (list_url p)) eqn:H1.
  - apply str_eqb_list_url in H1 as ->. cbn [fmap option_fmap option_map default snd].
    intros Hq. assert (q = js "/r/d") as ->; [|by cbv].
    revert Hq. change (folder_entries _) with [js "/r/d"].
    by intros ->%list_elem_of_singleton.
  - destruct (str_eqb (list_url (js "/r/d")) (list_url p)) eqn:H2;
      cbn [fmap option_fmap option_map default snd].
    + change (folder_entries _) with (@nil jsstring). by intros ?%elem_of_nil.
    + change (folder_entries _) with (@nil jsstring). by intros ?%elem_of_nil.
Qed.

Lemma unreachable_tree_like : tree_like unreachable_env (fun _ => 0).
Proof. intros p q. change (listing unreachable_env p) with (@nil Child).
  by intros ?%elem_of_nil. Qed.

Lemma resolved_iff_frontier_empty_and_idle_witness :
  exists st : State (Some (callback one_page_env)),
    exec one_page_env [Tick; ExpansionSettles 0; ExpansionSettles 0]
      (crawl (js "/r") (Some (callback one_page_env)) None) = Some st
    /\ ((results (sched st) = Resolved FilesArray
         <-> folders (sched st) = [] /\ in_flight (sched st) = 0)
        /\ (result_value (sched st) = Some (files (sched st))
            <-> folders (sched st) = [] /\ in_flight (sched st) = 0)
        /\ results (sched st) <> Failed
        /\ in_flight (sched st) = length (expansions (sched st))).
Proof.
  eexists. split; [reflexivity|].
  apply (resolved_iff_frontier_empty_and_idle one_page_env (js "/r")
           (Some (callback one_page_env)) None
           [Tick; ExpansionSettles 0; ExpansionSettles 0]).
  reflexivity.
Defined.

Lemma crawl_result_is_the_reachable_files_witness :
  let E := small_tree_env in
  let f := failing_callback in
  let events := [Tick; ExpansionSettles 0; ExpansionSettles 0;
                 Tick; ExpansionSettles 0; ExpansionSettles 0] in
  exists (st : State (Some f)) (fs : list Child),
    exec E events (crawl (js "/r") (Some f) None) = Some st
    /\ result_value (sched st) = Some fs
    /\ fs = [file_entry "/r/a.html"; file_entry "/r/b.html"; file_entry "/r/d/c.html"]
    /\ (forall c, c ∈ fs
          <-> exists q, reaches E (js "/r") q /\ c ∈ file_entries (listing E q))
    /\ fs ≡ₚ reachable_files E small_tree_height (js "/r")
    /\ NoDup (path <$> fs)
    /\ (forall q, list_request E q ∈ fetched (sched st) <-> reaches E (js "/r") q)
    /\ fetched (sched st)
       ≡ₚ list_request E <$> reachable_folders E small_tree_height (js "/r")
    /\ NoDup (fetched (sched st))
    /\ reported st = fs.
Proof.
  intros E f events. eexists _, _.
  split; [vm_compute; reflexivity|]. split; [vm_compute; reflexivity|].
  split; [reflexivity|].
  apply (crawl_result_is_the_reachable_files E small_tree_height (js "/r") f
           None events).
  - exact small_tree_like.
  - apply (bool_decide_unpack _). vm_compute. reflexivity.
  - apply (bool_decide_unpack _). vm_compute. reflexivity.
  - vm_compute. reflexivity.
  - vm_compute. reflexivity.
Defined.

Lemma callback_failure_does_not_abort_traversal_witness :
  let E := small_tree_env in
  let events1 := [Tick; ExpansionSettles 0; ExpansionSettles 0;
                  Tick; ExpansionSettles 0; ExpansionSettles 0] in
  let events2 := [Tick; ExpansionSettles 0; ExpansionSettles 0;
                  CallbackSettles 0; Tick; ExpansionSettles 0;
                  CallbackSettles 0; ExpansionSettles 0] in
  exists (st1 : State (Some failing_callback))
         (st2 : State (Some late_failing_callback)),
    exec E events1 (crawl (js "/r") (Some failing_callback) None) = Some st1
    /\ exec E events2 (crawl (js "/r") (Some late_failing_callback) None) = Some st2
    /\ length (console st1) = 3 /\ length (console st2) = 2
    /\ sched st1 = sched st2
    /\ results (sched st1) <> Failed
    /\ (forall (f : AsyncFn) (json : list Child) (st : State (Some f)),
          files (sched (forEach json st)) = files (sched st) ++ file_entries json
          /\ folders (sched (forEach json st))
             = folders (sched st) ++ folder_entries json
          /\ reported (forEach json st) = reported st ++ file_entries json).
Proof.
  intros E events1 events2. eexists _, _.
  split; [vm_compute; reflexivity|]. split; [vm_compute; reflexivity|].
  split; [reflexivity|]. split; [reflexivity|].
  apply (callback_failure_does_not_abort_traversal E (js "/r") None
           (Some failing_callback) (Some late_failing_callback) events1 events2);
    vm_compute; reflexivity.
Defined.

Lemma failed_listing_is_an_empty_expansion_witness :
  let E := broken_tree_env in
  let events := [Tick; ExpansionSettles 0; ExpansionSettles 0; Tick] in
  let x := AwaitList (js "/r/d") in
  exists st : State (Some failing_callback),
    exec E events (crawl (js "/r") (Some failing_callback) None) = Some st
    /\ expansions (sched st) !! 0 = Some x
    /\ (exists (settlements : list Event) (st' : State (Some failing_callback)),
          (settlements = [ExpansionSettles 0]
           \/ settlements = [ExpansionSettles 0; ExpansionSettles 0])
          /\ exec E settlements st = Some st'
          /\ files (sched st') = files (sched st)
          /\ folders (sched st') = folders (sched st)
          /\ expansions (sched st') = delete 0 (expansions (sched st))
          /\ S (in_flight (sched st')) = in_flight (sched st)
          /\ callbacks st' = callbacks st
          /\ reported st' = reported st
          /\ results (sched st') <> Failed)
    /\ listing E (expansion_path x) = []
    /\ forall fuel, files_under E fuel (expansion_path x) = [].
Proof.
  intros E events x. eexists.
  split; [vm_compute; reflexivity|]. split; [reflexivity|].
  apply (failed_listing_is_an_empty_expansion E (js "/r") (Some failing_callback)
           None events _ 0 x); vm_compute; reflexivity.
Defined.

Lemma crawl_always_resolves_witness :
  let E := unreachable_env in
  let events := [Tick] in
  let init := crawl (js "/r") (Some failing_callback) None in
  let bound := 3 * length (reachable_folders E (fun _ => 0) (js "/r")) + 1 in
  exists st : State (Some failing_callback),
    exec E events init = Some st
    /\ results (sched st) <> Failed
    /\ progress_steps E events (sched init) <= bound
    /\ (results (sched st) = Pending ->
        exists st', step E (next_event (sched st)) st = Some st'
          /\ is_scheduler_event (next_event (sched st)) = true
          /\ idle_tick (next_event (sched st)) (sched st) = false)
    /\ exists fs,
         result_value (sched (run E bound st)) = Some fs
         /\ fs = files (sched (run E bound st))
         /\ fs ≡ₚ reachable_files E (fun _ => 0) (js "/r").
Proof.
  intros E events init bound. eexists. split; [vm_compute; reflexivity|].
  apply (crawl_always_resolves E (fun _ => 0) (js "/r") (Some failing_callback)
           None events _ unreachable_tree_like).
  vm_compute. reflexivity.
Defined.

(** The loop run to its end on the sample stores. *)
Example run_small_tree :
  result_value
    (sched (run small_tree_env 7 (crawl (js "/r") None None)))
  = Some [file_entry "/r/a.html"; file_entry "/r/b.html"; file_entry "/r/d/c.html"].
Proof. vm_compute. reflexivity. Qed.

Example run_broken_tree :
  result_value
    (sched (run broken_tree_env 7 (crawl (js "/r") None None)))
  = Some [file_entry "/r/a.html"; file_entry "/r/b.html"].
Proof. vm_compute. reflexivity. Qed.

Example run_unreachable :
  result_value
    (sched (run unreachable_env 4 (crawl (js "/r") None None)))
  = Some [].
Proof. vm_compute. reflexivity. Qed.

(** * Further properties of the script *)

(** ** [authenticatedFetch] *)

Lemma header_value_app (name : jsstring) (h1 h2 : list (jsstring * jsstring)) :
  header_value name (h1 ++ h2)
  = match header_value name h2 with
    | Some v => Some v
    | None => header_value name h1
    end.
Proof.
  unfold header_value. rewrite filter_app, last_app.
  by destruct (last (filter _ h2)).
Qed.

(** X1: [authenticatedFetch] keeps the URL, the method (GET when none is
    given) and the body of its arguments; a header the caller gives
    overrides the fixed header of the same name, and without one the
    request carries [Authorization: Bearer <token>]. *)
Theorem authenticatedFetch_request (E : Env) (url : jsstring) (options : Options)
    (name : jsstring) :
  let r := authenticatedFetch E url options in
  req_url r = url
  /\ req_method r = default GET (opt_method options)
  /\ req_body r = opt_body options
  /\ header_value name (req_headers r)
     = match header_value name (opt_headers options) with
       | Some v => Some v
       | None => header_value name (req_headers (authenticatedFetch E url no_options))
       end
  /\ header_value (js "Authorization")
       (req_headers (authenticatedFetch E url no_options))
     = Some (js "Bearer " ++ bearerToken E).
Proof.
  cbn zeta. split; [done|]. split; [done|]. split; [done|]. split.
  - unfold authenticatedFetch. cbn [req_headers opt_headers no_options].
    rewrite app_nil_r. apply header_value_app.
  - reflexivity.
Qed.

(** ** The callback of [main] *)

Lemma resume_all_settled (f : AsyncFn) (fuel : nat) (ok : bool) (done : list Effect) :
  resume_all f fuel (if ok then Return else Throw) done = Some (ok, done).
Proof. destruct ok, fuel; reflexivity. Qed.

(** X2: a whole run of the callback on [item] makes no request at all
    when the path does not end in [.html]; otherwise it makes the GET of
    the source and at most one more request, a POST to the same URL.  It
    never addresses another URL. *)
Theorem callback_requests (E : Env) (item : Child) :
  exists outcome effs,
    run_async (callback E) 3 item = Some (outcome, effs)
    /\ (is_document item = false -> effs = [])
    /\ (is_document item = true ->
        requests_of effs = [source_request E item]
        \/ exists html, requests_of effs
                        = [source_request E item; publish_request E item html])
    /\ (forall r, r ∈ requests_of effs -> req_url r = source_url (path item)).
Proof.
  unfold run_async, is_document, source_request, publish_request.
  cbn [callback cb_start cb_resume]. unfold callback_start.
  destruct (endsWith (path item) (js ".html")) eqn:Hext; cbn [negb].
  2:{ eexists _, _. split; [reflexivity|]. split; [done|]. split; [done|].
      by intros r ?%elem_of_nil. }
  assert (Hshort : forall effs : list Effect,
    requests_of effs = [authenticatedFetch E (source_url (path item)) no_options] ->
    (true = false -> effs = [])
    /\ (true = true ->
        requests_of effs = [authenticatedFetch E (source_url (path item)) no_options]
        \/ exists html, requests_of effs
             = [authenticatedFetch E (source_url (path item)) no_options;
                authenticatedFetch E (source_url (path item)) (publish_options html)])
    /\ (forall r, r ∈ requests_of effs -> req_url r = source_url (path item))).
  { intros effs Hr. split; [done|]. split; [by left|]. rewrite Hr.
    by intros r ->%list_elem_of_singleton. }
  cbn [resume_all cb_resume callback callback_resume].
  destruct (fetch E (authenticatedFetch E (source_url (path item)) no_options))
    as [resp|]; [|eexists _, _; split; [reflexivity|]; by apply Hshort].
  destruct (ok resp); cbn [negb];
    [|eexists _, _; split; [reflexivity|]; by apply Hshort].
  cbn [resume_all cb_resume callback callback_resume].
  destruct (text resp) as [t|];
    [|eexists _, _; split; [reflexivity|]; by apply Hshort].
  unfold inspect_and_publish.
  destruct (isBlankPage (body (parseFromString E t)));
    [eexists _, _; split; [reflexivity|]; by apply Hshort|].
  destruct (body (parseFromString E t)) as [root|];
    [|eexists _, _; split; [reflexivity|]; by apply Hshort].
  cbn [resume_all cb_resume callback callback_resume].
  destruct (fetch E _); eexists _, _; (split; [reflexivity|]);
    (split; [done|]); (split; [right; by exists (outerHTML root)|]);
    intros r; cbn; rewrite !elem_of_cons; intros [->|[->|?%elem_of_nil]]; done.
Qed.

(** X3: the promise of the callback is rejected exactly when a call it
    awaits is rejected (the GET, the reading of the text, the POST).  A
    source response that is not a success is not a failure: the callback
    logs it and returns without a POST; and the status of the POST
    response is not looked at. *)
Theorem callback_rejected_iff_awaited_call_rejected (E : Env) (item : Child) :
  exists outcome effs,
    run_async (callback E) 3 item = Some (outcome, effs)
    /\ (outcome = false <-> callback_rejects E item)
    /\ (forall resp,
          is_document item = true ->
          fetch E (source_request E item) = Fulfilled resp ->
          ok resp = false ->
          outcome = true
          /\ effs = [Requested (source_request E item); Logged CouldNotFetchItem]).
Proof.
  unfold run_async, callback_rejects, is_document, source_request, publish_request.
  cbn [callback cb_start cb_resume]. unfold callback_start.
  destruct (endsWith (path item) (js ".html")) eqn:Hext; cbn [negb].
  2:{ eexists _, _. split; [reflexivity|]. split; [|done].
      split; [done | intros [? _]; congruence]. }
  cbn [resume_all cb_resume callback callback_resume].
  destruct (fetch E (authenticatedFetch E (source_url (path item)) no_options))
    as [resp|] eqn:Hfetch.
  2:{ eexists _, _. split; [reflexivity|]. split; [|done].
      split; [|done]. intros _. split; [done|]. by left. }
  destruct (ok resp) eqn:Hok; cbn [negb].
  2:{ eexists _, _. split; [reflexivity|]. split; [|done].
      split; [done|]. intros (_ & [?|(resp' & ? & ? & _)]); congruence. }
  cbn [resume_all cb_resume callback callback_resume].
  destruct (text resp) as [t|] eqn:Htext.
  2:{ eexists _, _. split; [reflexivity|]. split; [|intros; congruence].
      split; [|done]. intros _. split; [done|]. right. exists resp. auto. }
  unfold inspect_and_publish.
  destruct (isBlankPage (body (parseFromString E t))) eqn:Hblank.
  { eexists _, _. split; [reflexivity|]. split; [|intros; congruence].
    split; [done|].
    intros (_ & [?|(resp' & ? & ? & [?|(t' & root & ? & Hb & Hnb & _)])]);
      congruence. }
  destruct (body (parseFromString E t)) as [root|] eqn:Hbody;
    [|by rewrite isBlankPage_no_body in Hblank].
  cbn [resume_all cb_resume callback callback_resume].
  destruct (fetch E (authenticatedFetch E (source_url (path item))
                       (publish_options (outerHTML root)))) as [ack|] eqn:Hpost;
    eexists _, _; (split; [reflexivity|]); (split; [|intros; congruence]).
  - split; [done|].
    intros (_ & [?|(resp' & ? & ? & [?|(t' & root' & ? & Hb & _ & Hrej)])]);
      congruence.
  - split; [|done]. intros _. split; [done|]. right. exists resp.
    split; [done|]. split; [done|]. right. by exists t, root.
Qed.

(** ** The scheduler over whole runs *)

Lemma step_resolved {callback} (E : Env) (e : Event) (st st' : State callback) :
  sched_inv (sched st) -> results (sched st) <> Pending ->
  step E e st = Some st' ->
  sched st' = sched st /\ is_scheduler_event e = false.
Proof.
  intros [Hlen Hres] Hnp Hstep.
  destruct (results (sched st)) as [|r|]; [done| |done].
  destruct Hres as (Hint & _ & Hin). rewrite Hin in Hlen.
  symmetry in Hlen. apply length_zero_iff_nil in Hlen.
  destruct e as [|i|j]; cbn [step] in Hstep.
  - by rewrite Hint in Hstep.
  - by rewrite Hlen in Hstep.
  - split; [|done]. by apply (sched_callback_settles j st st').
Qed.

(** X4: once [results] is resolved nothing touches the variables of
    [crawl] again: the timer is cleared and no handler is suspended, so
    the only events that can still happen are settlements of callbacks,
    and they leave [files] - the array [results] was resolved with - the
    frontier and the in-flight count as they are. *)
Theorem resolved_crawl_is_final (E : Env) (root : jsstring)
    (callback : option AsyncFn) (concurrent : option nat)
    (events later : list Event) (st st' : State callback) (fs : list Child) :
  exec E events (crawl root callback concurrent) = Some st ->
  result_value (sched st) = Some fs ->
  exec E later st = Some st' ->
  sched st' = sched st
  /\ result_value (sched st') = Some fs
  /\ scheduler_events later = []
  /\ step E Tick st' = None
  /\ forall i, step E (ExpansionSettles i) st' = None.
Proof.
  intros Hexec Hres Hlater.
  pose proof (reachable_inv _ _ _ _ _ _ Hexec) as Hinv.
  assert (Hnp : results (sched st) <> Pending).
  { unfold result_value in Hres. by destruct (results (sched st)). }
  assert (Hsame : sched st' = sched st /\ scheduler_events later = []).
  { clear Hexec Hres. revert st Hinv Hnp Hlater.
    induction later as [|e later IH]; intros st Hinv Hnp; cbn [exec].
    - by intros [= <-].
    - destruct (step E e st) as [st1|] eqn:Hstep; [|done]. intros Hlater.
      destruct (step_resolved E e st st1 Hinv Hnp Hstep) as [Hs He].
      destruct (IH st1) as [Hs' Hev]; [by rewrite Hs..|done|].
      split; [congruence|]. unfold scheduler_events in *.
      rewrite filter_cons_False by (by rewrite He). done. }
  destruct Hsame as [Hs Hev]. rewrite Hs. split; [done|]. split; [done|].
  split; [done|]. destruct Hinv as [Hlen Hr].
  destruct (results (sched st)) as [|r|]; [done| |done].
  destruct Hr as (Hint & _ & Hin). rewrite Hin in Hlen.
  symmetry in Hlen. apply length_zero_iff_nil in Hlen.
  split; [|intros i]; cbn [step]; rewrite Hs; [by rewrite Hint | by rewrite Hlen].
Qed.

Lemma prefix_check (s : Sched) :
  files (check s) = files s /\ fetched (check s) = fetched s.
Proof. unfold check. by destruct (_ && _). Qed.

Lemma settle_grows {callback} (a : Async (callback_state callback))
    (pending : list (callback_state callback)) (st : State callback) :
  reported (settle a pending st) = reported st
  /\ cb_effects (settle a pending st) = cb_effects st
  /\ console st `prefix_of` console (settle a pending st).
Proof. destruct a; cbn; repeat split; try done. by apply prefix_app_r. Qed.

Lemma visit_grows {callback} (st : State callback) (child : Child) :
  reported st `prefix_of` reported (visit st child)
  /\ cb_effects st `prefix_of` cb_effects (visit st child)
  /\ console st `prefix_of` console (visit st child).
Proof.
  unfold visit. destruct (has_ext child); [|done].
  destruct callback as [f|]; [|done]. cbn [invoke_callback].
  destruct (cb_start f child) as [a eff].
  match goal with |- context [settle a ?p ?s] =>
    destruct (settle_grows (callback := Some f) a p s) as (-> & -> & Hc) end.
  cbn in *. repeat split; try done; by apply prefix_app_r.
Qed.

Lemma forEach_grows {callback} (json : list Child) (st : State callback) :
  reported st `prefix_of` reported (forEach json st)
  /\ cb_effects st `prefix_of` cb_effects (forEach json st)
  /\ console st `prefix_of` console (forEach json st).
Proof.
  unfold forEach. revert st. induction json as [|c json IH]; intros st; [done|].
  cbn [fold_left]. destruct (IH (visit st c)) as (H1 & H2 & H3).
  destruct (visit_grows st c) as (G1 & G2 & G3).
  repeat split; by etransitivity.
Qed.

Lemma step_grows {callback} (E : Env) (e : Event) (st st' : State callback) :
  step E e st = Some st' ->
  files (sched st) `prefix_of` files (sched st')
  /\ fetched (sched st) `prefix_of` fetched (sched st')
  /\ reported st `prefix_of` reported st'
  /\ cb_effects st `prefix_of` cb_effects st'
  /\ console st `prefix_of` console st'.
Proof.
  destruct e as [|i|j]; cbn [step].
  - destruct (interval (sched st)); [|done]. intros [= <-]. cbn.
    unfold handler_start. destruct (last (folders (sched st))).
    + cbn. repeat split; try done. by apply prefix_app_r.
    + by destruct (prefix_check (sched st)) as [-> ->].
  - destruct (expansions (sched st) !! i) as [[p|p resp]|]; [| |done];
      intros [= <-]; cbn [handler_resume].
    + destruct (fetch E (list_request E p)) as [resp|]; [destruct (ok resp)|];
        cbn; unfold finish;
        rewrite ?(proj1 (prefix_check _)), ?(proj2 (prefix_check _));
        repeat split; try done; by apply prefix_app_r.
    + destruct (json resp) as [json|].
      * cbn [with_sched sched reported cb_effects console]. unfold finish.
        rewrite (proj1 (prefix_check _)), (proj2 (prefix_check _)).
        cbn [files fetched]. rewrite sched_forEach.
        destruct (fold_visit_sched json (sched st)) as (-> & _ & _ & _ & _ & _ & ->).
        destruct (forEach_grows json st) as (G1 & G2 & G3).
        repeat split; try done. by apply prefix_app_r.
      * cbn. unfold finish.
        rewrite (proj1 (prefix_check _)), (proj2 (prefix_check _)).
        repeat split; try done. by apply prefix_app_r.
  - intros Hs. rewrite (sched_callback_settles _ _ _ Hs).
    destruct callback as [f|]; [|done]. cbn [callback_settles] in Hs.
    destruct (callbacks st !! j) as [k|]; [|done].
    destruct (cb_resume f k) as [a eff]. injection Hs as <-.
    match goal with |- context [settle a ?p ?s] =>
      destruct (settle_grows (callback := Some f) a p s) as (-> & -> & Hc) end.
    cbn in *. repeat split; try done. by apply prefix_app_r.
Qed.

(** X5: nothing that was recorded is ever taken back or reordered.  Over
    any run, from any state, [files], the list requests made, the calls
    of the callback, the effects of the callbacks and the console output
    only grow at their end. *)
Theorem records_are_append_only {callback} (E : Env) (events : list Event)
    (st st' : State callback) :
  exec E events st = Some st' ->
  files (sched st) `prefix_of` files (sched st')
  /\ fetched (sched st) `prefix_of` fetched (sched st')
  /\ reported st `prefix_of` reported st'
  /\ cb_effects st `prefix_of` cb_effects st'
  /\ console st `prefix_of` console st'.
Proof.
  revert st. induction events as [|e events IH]; intros st; cbn [exec].
  - by intros [= <-].
  - destruct (step E e st) as [st1|] eqn:Hstep; [|done]. intros Hexec.
    destruct (step_grows E e st st1 Hstep) as (G1 & G2 & G3 & G4 & G5).
    destruct (IH st1 Hexec) as (H1 & H2 & H3 & H4 & H5).
    repeat split; by etransitivity.
Qed.

Lemma launches_step (E : Env) (e : Event) (s s' : Sched) :
  sched_step E e s = Some s' ->
  length (fetched s') <= length (fetched s) + (if is_tick e then 1 else 0)
  /\ length (expansions s') + length (fetched s)
     <= length (expansions s) + length (fetched s').
Proof.
  assert (Hcheck : forall s0, fetched (check s0) = fetched s0
                              /\ expansions (check s0) = expansions s0).
  { intros s0. unfold check. by destruct (_ && _). }
  assert (Hfin : forall i s0,
            length (fetched (finish i s0)) = length (fetched s0)
            /\ length (expansions (finish i s0)) <= length (expansions s0)).
  { intros i s0. unfold finish. destruct (Hcheck
      {| files := files s0; folders := folders s0;
         inProgress := removelast (inProgress s0); interval := interval s0;
         results := results s0; expansions := delete i (expansions s0);
         fetched := fetched s0 |}) as [-> ->]. cbn. split; [done|].
    rewrite delete_take_drop, length_app, length_take, length_drop. lia. }
  intros Hstep. destruct e as [|i|j]; cbn [sched_step is_tick] in *.
  - destruct (interval s); [|done]. injection Hstep as <-. unfold handler_start.
    destruct (last (folders s)).
    + cbn. rewrite !length_app. cbn. lia.
    + destruct (Hcheck s) as [-> ->]. lia.
  - destruct (expansions s !! i) as [[p|p resp]|]; [| |done].
    + destruct (fetch E (list_request E p)) as [resp|];
        [destruct (ok resp)|]; injection Hstep as <-.
      * cbn. rewrite length_insert. lia.
      * destruct (Hfin i s). lia.
      * destruct (Hfin i s). lia.
    + destruct (json resp) as [json|]; injection Hstep as <-.
      * destruct (Hfin i (fold_left visit_sched json s)) as [Hf He].
        destruct (fold_visit_sched json s) as (_ & _ & _ & _ & _ & H6 & H7).
        rewrite H6 in He. rewrite H7 in Hf. lia.
      * destruct (Hfin i s). lia.
  - injection Hstep as <-. lia.
Qed.

(** X6: what the code has in place of a cap is the timer: one expansion
    at most is started per tick.  In every state a call of [crawl] can
    reach, the list requests made are no more than the ticks of the run,
    and the in-flight count is no more than the list requests made. *)
Theorem one_expansion_per_tick (E : Env) (root : jsstring)
    (callback : option AsyncFn) (concurrent : option nat)
    (events : list Event) (st : State callback) :
  exec E events (crawl root callback concurrent) = Some st ->
  length (fetched (sched st)) <= ticks events
  /\ in_flight (sched st) <= length (fetched (sched st)).
Proof.
  intros Hexec. destruct (reachable_inv _ _ _ _ _ _ Hexec) as [Hlen _].
  unfold in_flight. rewrite Hlen. apply sched_of_exec in Hexec.
  assert (Hgen : forall events s s',
            sched_exec E events s = Some s' ->
            length (fetched s') <= length (fetched s) + ticks events
            /\ length (expansions s') + length (fetched s)
               <= length (expansions s) + length (fetched s')).
  { clear. induction events as [|e events IH]; intros s s'; cbn [sched_exec].
    - intros [= <-]. unfold ticks. cbn. lia.
    - destruct (sched_step E e s) as [s1|] eqn:Hstep; [|done]. intros Hexec.
      destruct (launches_step E e s s1 Hstep) as [H1 H2].
      destruct (IH s1 s' Hexec) as [H3 H4].
      assert (Ht : ticks (e :: events) = (if is_tick e then 1 else 0) + ticks events).
      { unfold ticks. destruct e; [rewrite filter_cons_True by done
                                   |rewrite filter_cons_False by done..]; done. }
      rewrite Ht. lia. }
  destruct (Hgen _ _ _ Hexec) as [H1 H2]. cbn in H1, H2. lia.
Qed.

(** X7: when every list call settles before the timer fires again - the
    order [run] follows - expansions never overlap: at most one is in
    flight at any turn. *)
Theorem prompt_answers_keep_one_in_flight (E : Env) (root : jsstring)
    (callback : option AsyncFn) (concurrent : option nat) (fuel : nat) :
  in_flight (sched (run E fuel (crawl root callback concurrent))) <= 1.
Proof.
  assert (Hgen : forall (st : State callback),
            sched_inv (sched st) -> length (expansions (sched st)) <= 1 ->
            length (expansions (sched (run E fuel st))) <= 1
            /\ sched_inv (sched (run E fuel st))).
  { induction fuel as [|n IH]; intros st Hinv Hle; cbn [run]; [done|].
    destruct (results (sched st)) eqn:Hres; [|done..].
    destruct (step E (next_event (sched st)) st) as [st'|] eqn:Hstep; [|done].
    pose proof (sched_of_step _ _ _ _ Hstep) as Hs.
    apply IH; [by eapply sched_step_inv|].
    destruct (launches_step E _ _ _ Hs) as [H1 H2].
    unfold next_event in *. destruct (expansions (sched st)) as [|x l] eqn:Hx.
    - cbn [is_tick] in H1. cbn in H2. lia.
    - cbn [is_tick] in H1. cbn in Hle, H2. lia. }
  destruct (Hgen (crawl root callback concurrent)) as [Hle [Hlen _]];
    [apply crawl_inv | cbn; lia |].
  unfold in_flight. by rewrite Hlen.
Qed.

(** ** Stores that are not trees *)

Section Cycle.
Context (E : Env) (p : jsstring) (Hself : p ∈ folder_entries (listing E p)).

Lemma next_hop (q : jsstring) :
  reaches E q p -> exists r, r ∈ folder_entries (listing E q) /\ reaches E r p.
Proof using Hself.
  destruct 1 as [q|q r t Hr Ht]; [exists q; split; [done | constructor]|].
  by exists r.
Qed.

Lemma leads_to_cycle_finish (i : nat) (x : Expansion) (s0 s : Sched)
    (pushed : list jsstring) :
  expansions s0 !! i = Some x ->
  folders s = folders s0 ++ pushed -> expansions s = expansions s0 ->
  (forall r, r ∈ folder_entries (listing E (expansion_path x)) -> r ∈ pushed) ->
  leads_to_cycle E p s0 -> leads_to_cycle E p (finish i s).
Proof using Hself.
  intros Hi Hfo Hex Hpushed (Hall & q & Hq & Hreach).
  assert (Hfields : folders (finish i s) = folders s
                    /\ expansions (finish i s) = delete i (expansions s)).
  { unfold finish, check. by destruct (_ && _). }
  destruct Hfields as [Hf He]. unfold leads_to_cycle, pending_paths in *.
  rewrite Hf, He, Hfo, Hex. split; [by apply Forall_delete|].
  apply elem_of_app in Hq as [Hq|Hq].
  { exists q. split; [|done]. apply elem_of_app. left. apply elem_of_app. by left. }
  apply list_elem_of_fmap in Hq as (y & -> & Hy).
  rewrite (delete_Permutation _ _ _ Hi) in Hy.
  apply elem_of_cons in Hy as [->|Hy].
  - destruct (next_hop _ Hreach) as (r & Hr & Hrp). exists r. split; [|done].
    apply elem_of_app. left. apply elem_of_app. right. by apply Hpushed.
  - exists (expansion_path y). split; [|done]. apply elem_of_app. right.
    by apply list_elem_of_fmap_2.
Qed.

Lemma leads_to_cycle_step (e : Event) (s s' : Sched) :
  sched_step E e s = Some s' -> leads_to_cycle E p s -> leads_to_cycle E p s'.
Proof using Hself.
  intros Hstep Hinv. pose proof Hinv as (Hall & q & Hq & Hreach).
  destruct e as [|i|j]; cbn [sched_step] in Hstep.
  - destruct (interval s); [|done]. injection Hstep as <-. unfold handler_start.
    destruct (last (folders s)) as [c|] eqn:Hlast.
    + apply removelast_last_Some in Hlast. unfold leads_to_cycle, pending_paths in *.
      cbn [folders expansions]. split.
      { apply Forall_app. split; [done|]. by repeat constructor. }
      exists q. split; [|done]. rewrite Hlast in Hq. rewrite fmap_app. cbn.
      revert Hq. rewrite !elem_of_app, list_elem_of_singleton. tauto.
    + unfold check. by destruct (_ && _).
  - destruct (expansions s !! i) as [x|] eqn:Hi; [|done].
    assert (Hempty : listing E (expansion_path x) = [] -> leads_to_cycle E p (finish i s)).
    { intros Hnil. apply (leads_to_cycle_finish i x s s []); try done.
      - by rewrite app_nil_r.
      - rewrite Hnil. by intros r ?%elem_of_nil. }
    destruct x as [c|c resp]; cbn [expansion_path] in Hempty.
    + destruct (fetch E (list_request E c)) as [resp|] eqn:Hfetch.
      * destruct (ok resp) eqn:Hok; injection Hstep as <-.
        -- unfold leads_to_cycle, pending_paths, set_expansion in *.
           cbn [folders expansions]. split; [by apply Forall_insert|].
           exists q. split; [|done]. rewrite list_fmap_insert.
           rewrite list_insert_id; [done|]. by rewrite list_lookup_fmap, Hi.
        -- apply Hempty. unfold listing. by rewrite Hfetch, Hok.
      * injection Hstep as <-. apply Hempty. unfold listing. by rewrite Hfetch.
    + pose proof (proj1 (Forall_lookup _ _) Hall i _ Hi) as [Hfetch Hok].
      destruct (json resp) as [children|] eqn:Hjson; injection Hstep as <-.
      * destruct (fold_visit_sched children s) as (_ & H2 & _ & _ & _ & H6 & _).
        apply (leads_to_cycle_finish i (AwaitJson c resp) s _ (folder_entries children));
          try done.
        cbn [expansion_path]. unfold listing. by rewrite Hfetch, Hok, Hjson.
      * apply Hempty. unfold listing. by rewrite Hfetch, Hok, Hjson.
  - by injection Hstep as <-.
Qed.

End Cycle.

(** X8: [crawl] keeps no record of the folders it has listed.  If a
    folder that can be met from the root names itself in its own listing,
    some folder is always waiting or being listed, and [results] is never
    resolved, however long the run. *)
Theorem self_listing_folder_never_resolves (E : Env) (root p : jsstring)
    (callback : option AsyncFn) (concurrent : option nat)
    (events : list Event) (st : State callback) :
  reaches E root p ->
  p ∈ folder_entries (listing E p) ->
  exec E events (crawl root callback concurrent) = Some st ->
  results (sched st) = Pending
  /\ result_value (sched st) = None
  /\ (folders (sched st) <> [] \/ in_flight (sched st) <> 0).
Proof.
  intros Hreach Hself Hexec.
  destruct (reachable_inv _ _ _ _ _ _ Hexec) as [Hlen Hres].
  apply sched_of_exec in Hexec.
  assert (Hinv : leads_to_cycle E p (sched st)).
  { assert (H0 : leads_to_cycle E p (sched (crawl root callback concurrent))).
    { split; [constructor|]. exists root. split; [|done].
      unfold pending_paths. cbn. by apply list_elem_of_singleton. }
    revert Hexec H0. generalize (sched (crawl root callback concurrent)).
    induction events as [|e events IH]; intros s; cbn [sched_exec].
    - by intros [= <-].
    - destruct (sched_step E e s) as [s1|] eqn:Hstep; [|done].
      intros Hexec H0. eapply IH; [done|]. by eapply leads_to_cycle_step. }
  destruct Hinv as (_ & q & Hq & _). unfold pending_paths, result_value, in_flight in *.
  destruct (results (sched st)) as [|r|]; [|exfalso|done].
  - split; [done|]. split; [done|]. destruct Hres as [_ [H|H]]; [by left|right].
    by destruct (inProgress (sched st)).
  - destruct Hres as (_ & Hf & Hp). rewrite Hf, Hp in *. cbn in Hlen.
    symmetry in Hlen. apply length_zero_iff_nil in Hlen. rewrite Hlen in Hq.
    by apply elem_of_nil in Hq.
Qed.

Lemma twice_listed_tree_like : tree_like twice_listed_env small_tree_height.
Proof.
  intros p q. unfold twice_listed_env. rewrite listing_table. cbn [find fst].
  destruct (str_eqb (list_url (js "/r")) (list_url p)) eqn:H1.
  - apply str_eqb_list_url in H1 as ->. cbn [fmap option_fmap option_map default snd].
    change (folder_entries _) with [js "/r/d"; js "/r/d"].
    intros Hq. assert (q = js "/r/d") as ->; [|by cbv].
    revert Hq. rewrite !elem_of_cons. by intros [->|[->|?%elem_of_nil]].
  - destruct (str_eqb (list_url (js "/r/d")) (list_url p)) eqn:H2;
      cbn [fmap option_fmap option_map default snd];
      change (folder_entries _) with (@nil jsstring); by intros ?%elem_of_nil.
Qed.

(** X9: paths are not compared.  On a finite store whose listings repeat
    a path, every occurrence is handled on its own: the resolved files
    are the file entries met when listing recursively, with their
    multiplicity, and a folder met twice is requested twice. *)
Theorem repeated_paths_are_handled_again (E : Env) (height : jsstring -> nat)
    (root : jsstring) (callback : option AsyncFn) (concurrent : option nat)
    (events : list Event) (st : State callback) (fs : list Child) :
  tree_like E height ->
  exec E events (crawl root callback concurrent) = Some st ->
  result_value (sched st) = Some fs ->
  fs ≡ₚ reachable_files E height root
  /\ fetched (sched st) ≡ₚ list_request E <$> reachable_folders E height root
  /\ (NoDup (fetched (sched st)) <-> NoDup (reachable_folders E height root))
  /\ (NoDup fs <-> NoDup (reachable_files E height root)).
Proof.
  intros Htree Hexec Hres.
  destruct (resolved_tree E height Htree root _ _ _ _ _ Hexec Hres)
    as (_ & Hperm & Hfetched).
  split; [done|]. split; [done|]. split.
  - rewrite Hfetched. apply (NoDup_fmap _).
  - by rewrite Hperm.
Qed.

Lemma repeated_paths_are_handled_again_witness :
  let E := twice_listed_env in
  let events := [Tick; ExpansionSettles 0; ExpansionSettles 0;
                 Tick; ExpansionSettles 0; ExpansionSettles 0;
                 Tick; ExpansionSettles 0; ExpansionSettles 0] in
  exists (st : State None) (fs : list Child),
    exec E events (crawl (js "/r") None None) = Some st
    /\ result_value (sched st) = Some fs
    /\ fs = [file_entry "/r/d/c.html"; file_entry "/r/d/c.html"]
    /\ fs ≡ₚ reachable_files E small_tree_height (js "/r")
    /\ fetched (sched st)
       ≡ₚ list_request E <$> reachable_folders E small_tree_height (js "/r")
    /\ (NoDup (fetched (sched st))
        <-> NoDup (reachable_folders E small_tree_height (js "/r")))
    /\ (NoDup fs <-> NoDup (reachable_files E small_tree_height (js "/r"))).
Proof.
  intros E events. eexists _, _.
  split; [vm_compute; reflexivity|]. split; [vm_compute; reflexivity|].
  split; [reflexivity|].
  apply (repeated_paths_are_handled_again E small_tree_height (js "/r") None None
           events).
  - exact twice_listed_tree_like.
  - vm_compute. reflexivity.
  - vm_compute. reflexivity.
Defined.

Lemma self_listing_folder_never_resolves_witness :
  let E := self_listing_env in
  let events := [Tick; ExpansionSettles 0; ExpansionSettles 0;
                 Tick; ExpansionSettles 0; ExpansionSettles 0] in
  exists st : State None,
    exec E events (crawl (js "/r") None None) = Some st
    /\ results (sched st) = Pending
    /\ result_value (sched st) = None
    /\ (folders (sched st) <> [] \/ in_flight (sched st) <> 0).
Proof.
  intros E events. eexists. split; [vm_compute; reflexivity|].
  apply (self_listing_folder_never_resolves E (js "/r") (js "/r") None None events).
  - constructor.
  - vm_compute. apply list_elem_of_singleton. reflexivity.
  - vm_compute. reflexivity.
Defined.

(** ** [main] *)










Lemma resolved_crawl_is_final_witness :
  let E := small_tree_env in
  let events := [Tick; ExpansionSettles 0; ExpansionSettles 0;
                 Tick; ExpansionSettles 0; ExpansionSettles 0] in
  let later := [CallbackSettles 0; CallbackSettles 0] in
  exists (st st' : State (Some late_failing_callback)) (fs : list Child),
    exec E events (crawl (js "/r") (Some late_failing_callback) None) = Some st
    /\ result_value (sched st) = Some fs
    /\ exec E later st = Some st'
    /\ length (console st') = 2
    /\ sched st' = sched st
    /\ result_value (sched st') = Some fs
    /\ scheduler_events later = []
    /\ step E Tick st' = None
    /\ forall i, step E (ExpansionSettles i) st' = None.
Proof.
  intros E events later. eexists _, _, _.
  split; [vm_compute; reflexivity|]. split; [vm_compute; reflexivity|].
  split; [vm_compute; reflexivity|]. split; [reflexivity|].
  apply (resolved_crawl_is_final E (js "/r") (Some late_failing_callback) None
           events later); vm_compute; reflexivity.
Defined.

Lemma records_are_append_only_witness :
  let E := small_tree_env in
  let st := crawl (js "/r") (Some failing_callback) None in
  let events := [Tick; ExpansionSettles 0; ExpansionSettles 0; Tick] in
  exists st' : State (Some failing_callback),
    exec E events st = Some st'
    /\ length (files (sched st')) = 2
    /\ files (sched st) `prefix_of` files (sched st')
    /\ fetched (sched st) `prefix_of` fetched (sched st')
    /\ reported st `prefix_of` reported st'
    /\ cb_effects st `prefix_of` cb_effects st'
    /\ console st `prefix_of` console st'.
Proof.
  intros E st events. eexists. split; [vm_compute; reflexivity|].
  split; [reflexivity|].
  apply (records_are_append_only E events st). vm_compute. reflexivity.
Defined.

Lemma one_expansion_per_tick_witness :
  let E := wide_env 3 in
  let events := burst 3 in
  exists st : State None,
    exec E events (crawl main_path None (Some 1)) = Some st
    /\ in_flight (sched st) = 3
    /\ length (fetched (sched st)) <= ticks events
    /\ in_flight (sched st) <= length (fetched (sched st)).
Proof.
  intros E events. eexists. split; [vm_compute; reflexivity|].
  split; [reflexivity|].
  apply (one_expansion_per_tick E main_path None (Some 1) events).
  vm_compute. reflexivity.
Defined.

(** ** The blank-page tests *)

Lemma trimStart_head (s r : jsstring) (c : N) :
  trimStart s = c :: r -> isWhiteSpace c = false.
Proof.
  induction s as [|a s IH]; [done|]. cbn [trimStart].
  destruct (isWhiteSpace a) eqn:Ha; [done|]. by intros [= <- _].
Qed.

Lemma trim_head (s r : jsstring) (c : N) :
  trim s = c :: r -> isWhiteSpace c = false.
Proof.
  unfold trim. destruct (trimStart s) as [|a t] eqn:Ht; [done|].
  pose proof (trimStart_head _ _ _ Ht) as Ha. rewrite trimEnd_cons, Ha.
  destruct (trimEnd t); by intros [= <- _].
Qed.

Lemma trim_not_space (s : jsstring) : str_eqb (trim s) [SPACE] = false.
Proof.
  apply bool_decide_eq_false. intros H. by apply trim_head in H.
Qed.

Lemma match_letters3_length (s : jsstring) :
  match_letters3 s = true ->
  3 <= length s /\ exists c, c ∈ s /\ isAsciiLetter c = true.
Proof.
  intros (pre & run & post & -> & Hlen & Hall)%match_letters3_spec.
  rewrite !length_app. split; [lia|].
  destruct run as [|c run]; [cbn in Hlen; lia|].
  exists c. split; [|by inversion Hall].
  apply elem_of_app. right. apply elem_of_app. left. by left.
Qed.

(** X12: of the nine tests of [isBlankPage] four decide.  The two
    comparisons with a single space can never hold after [trim], the two
    length tests repeat the comparisons with the empty string, and an
    empty text already passes the last test.  The verdict is: empty
    markup, or no child element, or one child element without text, or a
    text under 20 code units without a run of three ASCII letters. *)
Theorem isBlankPage_four_tests (b : option Element) :
  str_eqb (cleanText b) [SPACE] = false
  /\ str_eqb (cleanHTML b) [SPACE] = false
  /\ isBlankPage b
     = (str_eqb (cleanHTML b) []
        || no_child_elements b
        || only_empty_child b
        || ((length (cleanText b) <? 20) && negb (match_letters3 (cleanText b)))).
Proof.
  assert (H1 : str_eqb (cleanText b) [SPACE] = false) by apply trim_not_space.
  assert (H2 : str_eqb (cleanHTML b) [SPACE] = false) by apply trim_not_space.
  split; [done|]. split; [done|].
  unfold isBlankPage. rewrite H1, H2.
  assert (Hlen : forall s : jsstring, (length s =? 0) = str_eqb s []).
  { intros [|c s]; reflexivity. }
  rewrite !Hlen. destruct (str_eqb (cleanText b) []) eqn:Ht.
  - apply str_eqb_eq in Ht. rewrite Ht. cbn.
    by destruct (str_eqb (cleanHTML b) []), (no_child_elements b),
      (only_empty_child b).
  - cbn. by destruct (str_eqb (cleanHTML b) []), (no_child_elements b),
      (only_empty_child b).
Qed.

(** X13: the word test knows ASCII letters only.  A page whose cleaned
    text is shorter than three code units, or shorter than twenty and
    without any letter of [a-z] or [A-Z] - a short text in another
    script, say - is blank whatever its markup and children, and the
    callback does not publish it. *)
Theorem short_text_without_ascii_word_is_blank (b : option Element) :
  length (cleanText b) < 3
  \/ (length (cleanText b) < 20
      /\ Forall (fun c => isAsciiLetter c = false) (cleanText b)) ->
  isBlankPage b = true
  /\ classify {| body := b |} = Blank
  /\ forall (E : Env) (item : Child) (t : jsstring),
       parseFromString E t = {| body := b |} ->
       inspect_and_publish E item t
       = (Return, [Logged (BlankPageDetected (path item))]).
Proof.
  intros H.
  assert (Hb : isBlankPage b = true).
  { destruct (isBlankPage_four_tests b) as (_ & _ & ->).
    rewrite !orb_true_iff, andb_true_iff, negb_true_iff, Nat.ltb_lt. right.
    destruct (match_letters3 (cleanText b)) eqn:Hm; [exfalso|split; [lia|done]].
    destruct (match_letters3_length _ Hm) as (Hlen & c & Hc & Hletter).
    destruct H as [H|[_ H]]; [lia|].
    pose proof (proj1 (Forall_forall _ _) H c Hc). congruence. }
  split; [done|]. split; [unfold classify; cbn; by rewrite Hb|].
  intros E item t Hparse. unfold inspect_and_publish. rewrite Hparse. cbn [body].
  by rewrite Hb.
Qed.

Lemma short_text_without_ascii_word_is_blank_witness :
  let b := Some cyrillic_body in
  length (cleanText b) = 10
  /\ isBlankPage b = true
  /\ classify {| body := b |} = Blank
  /\ forall (E : Env) (item : Child) (t : jsstring),
       parseFromString E t = {| body := b |} ->
       inspect_and_publish E item t
       = (Return, [Logged (BlankPageDetected (path item))]).
Proof.
  intros b. split; [reflexivity|].
  apply (short_text_without_ascii_word_is_blank b). right.
  split; [vm_compute; lia|]. vm_compute. repeat constructor.
Defined.

(** ** Console output *)

Lemma console_ok_visit {callback} (E : Env) (st : State callback) (child : Child) :
  Forall (console_ok E) (console st) -> Forall (console_ok E) (console (visit st child)).
Proof.
  intros H. unfold visit. destruct (has_ext child); [|done].
  destruct callback as [f|]; [|done]. cbn [invoke_callback].
  destruct (cb_start f child) as [[k| |] eff]; cbn; try done.
  apply Forall_app. split; [done|]. by repeat constructor.
Qed.

Lemma console_ok_forEach {callback} (E : Env) (json : list Child)
    (st : State callback) :
  Forall (console_ok E) (console st) ->
  Forall (console_ok E) (console (forEach json st)).
Proof.
  unfold forEach. revert st. induction json as [|c json IH]; intros st H; [done|].
  cbn [fold_left]. by apply IH, console_ok_visit.
Qed.

Lemma console_ok_step {callback} (E : Env) (e : Event) (st st' : State callback) :
  step E e st = Some st' ->
  Forall (expansion_ok E) (expansions (sched st)) ->
  Forall (console_ok E) (console st) -> Forall (console_ok E) (console st').
Proof.
  intros Hstep Hall Hc. destruct e as [|i|j]; cbn [step] in Hstep.
  - destruct (interval (sched st)); [|done]. by injection Hstep as <-.
  - destruct (expansions (sched st) !! i) as [[p|p resp]|] eqn:Hi; [| |done];
      injection Hstep as <-; cbn [handler_resume].
    + destruct (fetch E (list_request E p)) as [resp|] eqn:Hfetch;
        [by destruct (ok resp)|].
      cbn. apply Forall_app. split; [done|]. apply Forall_singleton. by left.
    + pose proof (proj1 (Forall_lookup _ _) Hall i _ Hi) as [Hfetch Hok].
      destruct (json resp) as [json|] eqn:Hjson.
      * cbn. by apply console_ok_forEach.
      * cbn. apply Forall_app. split; [done|]. apply Forall_singleton.
        right. by exists resp.
  - destruct callback as [f|]; [|done]. cbn [callback_settles] in Hstep.
    destruct (callbacks st !! j) as [k|]; [|done].
    destruct (cb_resume f k) as [[k'| |] eff]; injection Hstep as <-; cbn; try done.
    apply Forall_app. split; [done|]. by repeat constructor.
Qed.

(** X14: [console.error] speaks of a folder only when its list call was
    rejected, at the request or at the reading of the body.  A list
    response that is not a success leaves no trace on the console: the
    folder is dropped in silence. *)
Theorem list_errors_on_console_are_rejections (E : Env) (root : jsstring)
    (callback : option AsyncFn) (concurrent : option nat)
    (events : list Event) (st : State callback) (p : jsstring) :
  exec E events (crawl root callback concurrent) = Some st ->
  (ErrorProcessing p ∈ console st -> list_rejected E p)
  /\ (forall resp, fetch E (list_request E p) = Fulfilled resp ->
        ok resp = false -> ErrorProcessing p ∉ console st).
Proof.
  intros Hexec.
  assert (Hinv : Forall (console_ok E) (console st)).
  { assert (Hgen : forall events0 (s0 s1 : State callback),
              exec E events0 (crawl root callback concurrent) = Some s0 ->
              forall later, exec E later s0 = Some s1 ->
              Forall (console_ok E) (console s0) -> Forall (console_ok E) (console s1)).
    { intros events0 s0 s1 H0 later. revert events0 s0 H0.
      induction later as [|e later IH]; intros events0 s0 H0; cbn [exec].
      - by intros [= <-].
      - destruct (step E e s0) as [s2|] eqn:Hstep; [|done]. intros Hl Hc.
        apply (IH (events0 ++ [e]) s2); [|done|].
        + rewrite exec_app, H0. cbn. by rewrite Hstep.
        + eapply console_ok_step; [done| |done].
          by eapply reachable_expansions_ok. }
    apply (Hgen [] _ st eq_refl events Hexec). constructor. }
  assert (H1 : ErrorProcessing p ∈ console st -> list_rejected E p).
  { intros Hin. by apply (proj1 (Forall_forall _ _) Hinv _ Hin). }
  split; [done|]. intros resp Hfetch Hok Hin.
  destruct (H1 Hin) as [Hr|(resp' & Hr & Hok' & _)]; congruence.
Qed.

Lemma list_errors_on_console_are_rejections_witness :
  let E := broken_tree_env in
  let events := [Tick; ExpansionSettles 0; ExpansionSettles 0;
                 Tick; ExpansionSettles 0] in
  let p := js "/r/d" in
  exists st : State None,
    exec E events (crawl (js "/r") None None) = Some st
    /\ console st = [ErrorProcessing p]
    /\ (ErrorProcessing p ∈ console st -> list_rejected E p)
    /\ (forall resp, fetch E (list_request E p) = Fulfilled resp ->
          ok resp = false -> ErrorProcessing p ∉ console st).
Proof.
  intros E events p. eexists. split; [vm_compute; reflexivity|].
  split; [reflexivity|].
  apply (list_errors_on_console_are_rejections E (js "/r") None None events).
  vm_compute. reflexivity.
Defined.

(** ** The cleaned text *)

Lemma replace_ws_runs_head (r : jsstring) :
  trimEnd r = r -> r <> [] ->
  exists d t, replace_ws_runs true r = d :: t /\ isWhiteSpace d = false.
Proof.
  induction r as [|a r IH]; [done|]. intros Hr _.
  rewrite replace_ws_runs_cons. destruct (isWhiteSpace a) eqn:Ha; [|by eexists _, _].
  rewrite trimEnd_cons, Ha in Hr.
  destruct (trimEnd r) as [|x r'] eqn:Hx; [done|].
  injection Hr as Hr. apply IH; [by rewrite Hr in *|]. by intros ->.
Qed.

Lemma single_spaced_replace (b : bool) (z : jsstring) :
  trimEnd z = z -> single_spaced (replace_ws_runs b z) = true.
Proof.
  revert b. induction z as [|c r IH]; intros b Hz; [done|].
  rewrite replace_ws_runs_cons. rewrite trimEnd_cons in Hz.
  destruct (isWhiteSpace c) eqn:Hc.
  - destruct (trimEnd r) as [|x r'] eqn:Hx; [done|]. injection Hz as Hz.
    assert (Hr : trimEnd r = r) by congruence.
    assert (Hne : r <> []) by (by intros ->).
    destruct b; [by apply IH|].
    destruct (replace_ws_runs_head r Hr Hne) as (d & t & Hd & Hws).
    cbn [single_spaced]. rewrite (IH true Hz), Hd, Hws. reflexivity.
  - cbn [single_spaced]. rewrite Hc. cbn [andb]. apply IH.
    destruct (trimEnd r) as [|x r'] eqn:Hx; [|congruence].
    by injection Hz as <-.
Qed.

(** X15: what lines 93-98 leave of a text.  The cleaned text and the
    cleaned markup do not begin with white space, and every white-space
    code unit in them is a single space followed by a code unit that is
    not white space: runs of blanks, tabs and line breaks weigh one code
    unit each in the length that is compared with 20. *)
Theorem cleaned_text_is_single_spaced (b : option Element) :
  single_spaced (cleanText b) = true
  /\ single_spaced (cleanHTML b) = true
  /\ (forall c r, cleanText b = c :: r -> isWhiteSpace c = false)
  /\ (forall c r, cleanHTML b = c :: r -> isWhiteSpace c = false).
Proof.
  assert (H : forall s, single_spaced (trim (replace_whitespace s)) = true).
  { intros s. rewrite trim_replace_whitespace. apply single_spaced_replace.
    unfold trim. apply trimEnd_idem. }
  split; [apply H|]. split; [apply H|].
  split; intros c r; apply trim_head.
Qed.

(** ** The source requests *)

Lemma callback_resume_no_get (E : Env) (k : CallbackState) :
  get_calls (snd (callback_resume E k)) = [].
Proof.
  destruct k as [item|item resp|item req]; cbn [callback_resume].
  - destruct (fetch E _) as [resp|]; [destruct (ok resp)|]; reflexivity.
  - destruct (text resp) as [t|]; [|reflexivity]. unfold inspect_and_publish.
    destruct (isBlankPage _); [reflexivity|]. by destruct (body _).
  - by destruct (fetch E req).
Qed.

Lemma source_gets_visit (E : Env) (st : State (Some (callback E))) (child : Child) :
  get_calls (cb_effects st)
  = source_request E <$> filter (fun c => is_document c = true) (reported st) ->
  get_calls (cb_effects (visit st child))
  = source_request E <$> filter (fun c => is_document c = true)
                           (reported (visit st child)).
Proof.
  intros H. unfold visit. destruct (has_ext child); [|done].
  cbn [invoke_callback callback cb_start with_sched callbacks reported cb_effects sched].
  unfold callback_start. fold (is_document child).
  destruct (is_document child) eqn:Hdoc; cbn [negb settle reported cb_effects].
  - unfold get_calls in *. rewrite omap_app, filter_app, fmap_app, H.
    by rewrite (filter_cons_True _ child).
  - rewrite app_nil_r, filter_app, (filter_cons_False _ child) by congruence.
    by rewrite filter_nil, app_nil_r.
Qed.

Lemma source_gets_step (E : Env) (e : Event) (st st' : State (Some (callback E))) :
  step E e st = Some st' ->
  get_calls (cb_effects st)
  = source_request E <$> filter (fun c => is_document c = true) (reported st) ->
  get_calls (cb_effects st')
  = source_request E <$> filter (fun c => is_document c = true) (reported st').
Proof.
  intros Hstep Hinv. destruct e as [|i|j]; cbn [step] in Hstep.
  - destruct (interval (sched st)); [|done]. by injection Hstep as <-.
  - destruct (expansions (sched st) !! i) as [[p|p resp]|]; [| |done];
      injection Hstep as <-; cbn [handler_resume].
    + destruct (fetch E (list_request E p)) as [resp|]; [by destruct (ok resp)|done].
    + destruct (json resp) as [json|]; [|done].
      cbn [with_sched reported cb_effects]. clear -Hinv. unfold forEach.
      revert st Hinv. induction json as [|c json IH]; intros st Hinv; [done|].
      cbn [fold_left]. by apply IH, source_gets_visit.
  - cbn [callback_settles] in Hstep.
    destruct (callbacks st !! j) as [k|]; [|done]. cbn [callback cb_resume] in Hstep.
    pose proof (callback_resume_no_get E k) as Hno.
    destruct (callback_resume E k) as [a eff]. injection Hstep as <-.
    cbn [snd] in Hno.
    assert (Heff : get_calls (cb_effects st ++ eff) = get_calls (cb_effects st)).
    { unfold get_calls in *. by rewrite omap_app, Hno, app_nil_r. }
    destruct a; cbn [settle console_error reported cb_effects]; by rewrite Heff.
Qed.

(** X16: the source of every recorded document is requested once, at the
    moment the document is recorded.  In every state the script can
    reach, the GETs of the callbacks are the source requests of the
    recorded files whose path ends in [.html], one each, in the order of
    [files]; files with another extension are never fetched. *)
Theorem each_document_is_fetched_once (E : Env) (root : jsstring)
    (concurrent : option nat) (events : list Event)
    (st : State (Some (callback E))) :
  exec E events (crawl root (Some (callback E)) concurrent) = Some st ->
  get_calls (cb_effects st)
  = source_request E <$> filter (fun c => is_document c = true) (files (sched st)).
Proof.
  intros Hexec.
  pose proof (reported_exec E _ _ _ Hexec eq_refl) as Hrep. cbn in Hrep.
  rewrite <- Hrep. clear Hrep.
  assert (H0 : get_calls (cb_effects (crawl root (Some (callback E)) concurrent))
               = source_request E <$> filter (fun c => is_document c = true)
                   (reported (crawl root (Some (callback E)) concurrent))) by done.
  revert Hexec H0. generalize (crawl root (Some (callback E)) concurrent).
  induction events as [|e events IH]; intros s0; cbn [exec].
  - by intros [= <-].
  - destruct (step E e s0) as [s1|] eqn:Hstep; [|done].
    intros Hexec H0. eapply IH; [done|]. by eapply source_gets_step.
Qed.

Lemma each_document_is_fetched_once_witness :
  let E := one_page_env in
  let events := [Tick; ExpansionSettles 0; ExpansionSettles 0; CallbackSettles 0] in
  exists st : State (Some (callback E)),
    exec E events (crawl (js "/r") (Some (callback E)) None) = Some st
    /\ files (sched st) = [file_entry "/r/a.html"]
    /\ get_calls (cb_effects st)
       = source_request E <$> filter (fun c => is_document c = true)
                                (files (sched st)).
Proof.
  intros E events. eexists. split; [lazy; reflexivity|]. split; [reflexivity|].
  apply (each_document_is_fetched_once E (js "/r") None events).
  lazy. reflexivity.
Defined.
